(** * fast_vector: fixed-length vectors with lazy elementwise expressions

    A verification model of [fast_vector<T, Rows>], [fast_vector_expr],
    [scalar] and the four binary operators: the header guarded by
    [DBN_FAST_VECTOR_HPP], found in
    [include/dll/neural/recurrent_layer_impl.hpp] after the recurrent layer.

    Vectors are named objects in a store; an expression holds its vector
    operands by reference, that is by name.  Every member function that touches
    storage is written in a small state-and-failure monad over that store.
    Failure ([None]) stands for a fired [dbn_assert], an access outside an
    array, or an operation of the element type that has no result (an
    integer division by zero): the program has no defined result there. *)

From stdpp Require Import base numbers option list gmap fin_maps.
From Stdlib Require Import ZArith Lia.

(** ** The element type [T]

    [T] is a template parameter: the code only uses its four arithmetic
    operators.  [lhs / rhs] need not have a result (an integer division by
    zero stops the program), so [t_div] is partial: [None] is a division
    with no defined result.  [moved_from] is what a moved-from element
    holds (the element itself for arithmetic types). *)
Class Elem (T : Type) := {
  t_add : T → T → T;
  t_sub : T → T → T;
  t_mul : T → T → T;
  t_div : T → T → option T;
  moved_from : T → T
}.

(** The least [int]. *)
Definition int_min : Z := (- 2 ^ 31)%Z.

(** [lhs / rhs] on [int]: the quotient truncated toward zero; no defined
    result for a zero divisor, nor for [INT_MIN / -1], whose quotient is
    not an [int]. *)
Definition int_div (lhs rhs : Z) : option Z :=
  if decide (rhs = 0 ∨ (lhs = int_min ∧ rhs = -1))%Z then None
  else Some (Z.quot lhs rhs).

(** C++ [int]: division as above; sums, differences and products away
    from overflow. *)
#[export] Instance Z_elem : Elem Z := {|
  t_add := Z.add;
  t_sub := Z.sub;
  t_mul := Z.mul;
  t_div := int_div;
  moved_from := λ x, x
|}.

(** [plus_binary_op<T>], [minus_binary_op<T>], [mul_binary_op<T>],
    [div_binary_op<T>]: stateless structs with one static [apply]. *)
Inductive binary_op :=
  | plus_binary_op
  | minus_binary_op
  | mul_binary_op
  | div_binary_op.

(** Names of vector objects. *)
Abbreviation name := nat (only parsing).

(** The static environment: the [Rows] argument of each declared vector. *)
Abbreviation tenv := (gmap nat nat) (only parsing).

Section model.
Context {T : Type} `{!Elem T}.

(** The content of storage that no constructor has written yet. *)
Context (indeterminate : name → nat → T).

Local Abbreviation store := (gmap nat (list T)).

(** [BinaryOp::apply(lhs, rhs)]: the operator of [T] and nothing around
    it.  The result is that of [T]; for [div_binary_op] there may be none. *)
Definition binary_op_apply (op : binary_op) (lhs rhs : T) : option T :=
  match op with
  | plus_binary_op => Some (t_add lhs rhs)
  | minus_binary_op => Some (t_sub lhs rhs)
  | mul_binary_op => Some (t_mul lhs rhs)
  | div_binary_op => t_div lhs rhs
  end.

(** *** The monad *)

Definition M (A : Type) : Type := store → option (A * store).

#[global] Instance M_ret : MRet M := λ A a st, Some (a, st).

#[global] Instance M_bind : MBind M := λ A B f m st,
  match m st with
  | Some (a, st') => f a st'
  | None => None
  end.

Definition fail {A} : M A := λ _, None.

(** An operation of [T] inside a member: its result, or the end of the run
    when it has none. *)
Definition compute {A} (r : option A) : M A :=
  match r with
  | Some x => mret x
  | None => fail
  end.

(** *** Storage *)

(** [rows] / [size()]: the length is part of the object's type. *)
Definition size (a : name) : M nat := λ st,
  v ← st !! a; Some (length v, st).

(** [_data[i]] read: [std::array::operator[]], no check of its own. *)
Definition data_get (a : name) (i : nat) : M T := λ st,
  v ← st !! a; x ← v !! i; Some (x, st).

(** [_data[i] = x] *)
Definition data_set (a : name) (i : nat) (x : T) : M unit := λ st,
  v ← st !! a;
  if decide (i < length v) then Some (tt, <[a := <[i := x]> v]> st) else None.

(** Modelled from the spec: the macro [dbn_assert] of [assert.hpp], a header
    the vector includes and that is not with it.  An assertion that does
    not hold ends the run (debug build); the optimised build has no defined
    behaviour there, which is [None] as well. *)
Definition dbn_assert (c : bool) : M unit :=
  if c then mret tt else fail.

(** [const T& operator[](size_t i) const] and [operator()(size_t i) const]
    of [fast_vector]. *)
Definition vec_at (a : name) (i : nat) : M T :=
  n ← size a;
  dbn_assert (bool_decide (i < n));;
  data_get a i.

(** *** Operands and expressions *)

(** What [LeftExpr] and [RightExpr] range over: a reference to a vector, a
    [scalar<T>] held by value, or a nested [fast_vector_expr]. *)
Inductive operand :=
  | vec (a : name)
  | scalar (value : T)
  | fast_vector_expr (op : binary_op) (lhs rhs : operand).

(** [operator[](std::size_t i) const] of each operand kind.  [scalar]
    ignores the index; [fast_vector_expr] applies its operator to both
    sides at [i].  C++ leaves the order of the two reads open; they are
    reads only ([index_pure]), so the order cannot be seen. *)
Fixpoint index (o : operand) (i : nat) : M T :=
  match o with
  | vec a => vec_at a i
  | scalar value => mret value
  | fast_vector_expr op lhs rhs =>
      x ← index lhs i;
      y ← index rhs i;
      compute (binary_op_apply op x y)
  end.

(** The vectors an operand refers to. *)
Fixpoint vec_refs (o : operand) : list name :=
  match o with
  | vec a => [a]
  | scalar _ => []
  | fast_vector_expr _ lhs rhs => vec_refs lhs ++ vec_refs rhs
  end.

(** The arithmetic producers of [fast_vector] and [fast_vector_expr]:
    they only build a node around [*this] and the right-hand side. *)
Definition op_plus (this re : operand) : operand :=
  fast_vector_expr plus_binary_op this re.
Definition op_minus (this re : operand) : operand :=
  fast_vector_expr minus_binary_op this re.
Definition op_mul (this re : operand) : operand :=
  fast_vector_expr mul_binary_op this re.
Definition op_mul_scalar (this : operand) (re : T) : operand :=
  fast_vector_expr mul_binary_op this (scalar re).
Definition op_div (this re : operand) : operand :=
  fast_vector_expr div_binary_op this re.
Definition op_div_scalar (this : operand) (re : T) : operand :=
  fast_vector_expr div_binary_op this (scalar re).

(** A [const T&] parameter: bound to a temporary or to an element that
    lives in some vector. *)
Inductive cref :=
  | by_value (v : T)
  | element (b : name) (j : nat).

Definition deref (r : cref) : M T :=
  match r with
  | by_value v => mret v
  | element b j => data_get b j
  end.

(** *** Loops *)

(** [for(size_t i = i0; i < i0 + k; ++i) body(i)], [k] iterations left. *)
Fixpoint for_loop (i k : nat) (body : nat → M unit) : M unit :=
  match k with
  | 0 => mret tt
  | S k' => body i;; for_loop (S i) k' body
  end.

(** A body run once at each index of a list, in the order of the list. *)
Fixpoint run_each (body : nat → M unit) (l : list nat) : M unit :=
  match l with
  | [] => mret tt
  | i :: l' => body i;; run_each body l'
  end.

(** [for(size_t i = 0; i < Rows; ++i)] inside a member of vector [a]. *)
Definition for_rows (a : name) (body : nat → M unit) : M unit :=
  n ← size a; for_loop 0 n body.

(** [std::fill(_data.begin(), _data.end(), value)] *)
Definition std_fill (a : name) (value : cref) : M unit :=
  for_rows a (λ i, x ← deref value; data_set a i x).

(** The loop shared by the constructor from an expression and by
    [operator=(fast_vector_expr&&)]: [_data[i] = e[i]]. *)
Definition materialize (a : name) (e : operand) : M unit :=
  for_rows a (λ i, x ← index e i; data_set a i x).

(** The defaulted move: elementwise, in index order. *)
Definition move_elements (a b : name) : M unit :=
  for_rows a (λ i,
    x ← data_get b i;
    data_set b i (moved_from x);;
    data_set a i x).

(** *** Constructors *)

(** Storage for a new [fast_vector<T, Rows>] named [a]. *)
Definition alloc (a : name) (Rows : nat) : M unit := λ st,
  Some (tt, <[a := indeterminate a <$> seq 0 Rows]> st).

(** [fast_vector()] *)
Definition construct_default (a : name) (Rows : nat) : M unit :=
  alloc a Rows.

(** [fast_vector(const T& value)] *)
Definition construct_fill (a : name) (Rows : nat) (value : cref) : M unit :=
  alloc a Rows;; std_fill a value.

(** [fast_vector(fast_vector_expr<T, LE, Op, RE>&& e)] *)
Definition construct_expr (a : name) (Rows : nat) (e : operand) : M unit :=
  alloc a Rows;; materialize a e.

(** [fast_vector(fast_vector&& rhs) = default] *)
Definition construct_move (a : name) (Rows : nat) (b : name) : M unit :=
  alloc a Rows;; move_elements a b.

(** *** Modifiers; those that [return *this] return the name *)

(** [fast_vector& operator=(fast_vector_expr<T, LE, Op, RE>&& e)] *)
Definition assign_expr (a : name) (e : operand) : M name :=
  materialize a e;; mret a.

(** [fast_vector& operator=(fast_vector&& rhs) = default] *)
Definition assign_move (a b : name) : M name :=
  move_elements a b;; mret a.

(** [void operator=(const T& value)] *)
Definition assign_scalar (a : name) (value : cref) : M unit :=
  std_fill a value.

(** [fast_vector& operator/=(const T& value)] *)
Definition div_assign (a : name) (value : cref) : M name :=
  for_rows a (λ i,
    s ← deref value;
    x ← data_get a i;
    q ← compute (t_div x s);
    data_set a i q);;
  mret a.

(** [template<typename RE> fast_vector& operator+=(RE&& rhs)] *)
Definition add_assign (a : name) (rhs : operand) : M name :=
  for_rows a (λ i,
    r ← index rhs i;
    x ← data_get a i;
    data_set a i (t_add x r));;
  mret a.

(** [a[i] = value] and [a(i) = value], through [T& operator[](size_t i)]. *)
Definition set_at (a : name) (i : nat) (value : cref) : M unit :=
  x ← deref value;
  n ← size a;
  dbn_assert (bool_decide (i < n));;
  data_set a i x.

(** *** Which calls are accepted

    Overload resolution and the static assertion, read off the signatures.
    An argument of a call is an expression of type [T] (a [const T&] can
    bind to it), an object with [operator[]] (vector, [scalar<T>] or
    expression), or [std::move(b)] of a vector. *)
Inductive argument :=
  | raw (value : cref)
  | obj (o : operand)
  | moved (b : name).

Inductive stmt :=
  | SDecl (a : name) (Rows : nat)                   (* fast_vector<T,Rows> a;    *)
  | SInit (a : name) (Rows : nat) (x : argument)    (* fast_vector<T,Rows> a(x); *)
  | SAssign (a : name) (x : argument)               (* a = x;                    *)
  | SDivAssign (a : name) (x : argument)            (* a /= x;                   *)
  | SAddAssign (a : name) (x : argument)            (* a += x;                   *)
  | SSetAt (a : name) (i : nat) (value : cref).     (* a[i] = value;             *)

Definition declared (Γ : tenv) (a : name) : bool :=
  bool_decide (is_Some (Γ !! a)).

Definition operand_in_scope (Γ : tenv) (o : operand) : bool :=
  forallb (declared Γ) (vec_refs o).

Definition cref_in_scope (Γ : tenv) (r : cref) : bool :=
  match r with
  | by_value _ => true
  | element b _ => declared Γ b
  end.

(** A declaration of [fast_vector<T, Rows> a]: the name is new and
    [static_assert(Rows > 0, ...)] holds. *)
Definition new_vector (Γ : tenv) (a : name) (Rows : nat) (ok : bool)
    (ctor : M unit) : option (tenv * M unit) :=
  if bool_decide (Γ !! a = None) && bool_decide (0 < Rows) && ok
  then Some (<[a := Rows]> Γ, ctor) else None.

(** A call of a member of the declared vector [a]. *)
Definition member_call (Γ : tenv) (a : name) (ok : bool)
    (body : M unit) : option (tenv * M unit) :=
  if declared Γ a && ok then Some (Γ, body) else None.

(** The overload selected for a statement, with the environment after it;
    [None] when the statement does not compile.  No case compares the
    length of the target with the length of a vector inside an expression:
    [fast_vector_expr] has no length in its type.  Only the move members,
    which take [fast_vector&&] of the very same type, fix the length. *)
Definition compile (Γ : tenv) (s : stmt) : option (tenv * M unit) :=
  match s with
  | SDecl a Rows =>
      new_vector Γ a Rows true (construct_default a Rows)
  | SInit a Rows (raw value) =>
      new_vector Γ a Rows (cref_in_scope Γ value) (construct_fill a Rows value)
  | SInit a Rows (obj (fast_vector_expr op l r)) =>
      let e := fast_vector_expr op l r in
      new_vector Γ a Rows (operand_in_scope Γ e) (construct_expr a Rows e)
  | SInit a Rows (obj _) =>
      None (* copy constructor deleted; no conversion from scalar<T> *)
  | SInit a Rows (moved b) =>
      new_vector Γ a Rows (bool_decide (Γ !! b = Some Rows))
        (construct_move a Rows b)
  | SAssign a (raw value) =>
      member_call Γ a (cref_in_scope Γ value) (assign_scalar a value)
  | SAssign a (obj (fast_vector_expr op l r)) =>
      let e := fast_vector_expr op l r in
      member_call Γ a (operand_in_scope Γ e) (assign_expr a e;; mret tt)
  | SAssign a (obj _) =>
      None (* copy assignment deleted; no conversion from scalar<T> *)
  | SAssign a (moved b) =>
      member_call Γ a (bool_decide (is_Some (Γ !! b) ∧ Γ !! b = Γ !! a))
        (assign_move a b;; mret tt)
  | SDivAssign a (raw value) =>
      member_call Γ a (cref_in_scope Γ value) (div_assign a value;; mret tt)
  | SDivAssign a _ =>
      None (* the one overload takes const T&; nothing converts to T *)
  | SAddAssign a (obj o) =>
      member_call Γ a (operand_in_scope Γ o) (add_assign a o;; mret tt)
  | SAddAssign a (moved b) =>
      member_call Γ a (declared Γ b) (add_assign a (vec b);; mret tt)
  | SAddAssign a (raw _) =>
      None (* the body subscripts rhs; a T has no operator[] *)
  | SSetAt a i value =>
      member_call Γ a (cref_in_scope Γ value) (set_at a i value)
  end.

Fixpoint compile_prog (Γ : tenv) (p : list stmt) : option (tenv * M unit) :=
  match p with
  | [] => Some (Γ, mret tt)
  | s :: p' =>
      '(Γ1, m1) ← compile Γ s;
      '(Γ2, m2) ← compile_prog Γ1 p';
      Some (Γ2, m1;; m2)
  end.

(** An accepted program run from the empty store. *)
Definition run (p : list stmt) : option (option store) :=
  match compile_prog ∅ p with
  | Some (_, m) => Some (snd <$> m ∅)
  | None => None
  end.

(** The value read at one index, and the whole of a materialisation, as
    pure functions of the store. *)
Definition eval (st : store) (o : operand) (i : nat) : option T :=
  fst <$> index o i st.

(** Element [i] of vector [a], when there is one. *)
Definition cell (st : store) (a : name) (i : nat) : option T :=
  st !! a ≫= (.!! i).

(** What a [const T&] refers to. *)
Definition referent (st : store) (r : cref) : option T :=
  match r with
  | by_value v => Some v
  | element b j => cell st b j
  end.

(** The reference points into vector [a]. *)
Definition aliases (r : cref) (a : name) : Prop :=
  match r with
  | by_value _ => False
  | element b _ => b = a
  end.

(** An operand evaluated on one element [x] standing for every vector it
    reads: the value of an expression over a single vector at the index
    where that vector holds [x]. *)
Fixpoint eval_on (x : T) (o : operand) : option T :=
  match o with
  | vec _ => Some x
  | scalar value => Some value
  | fast_vector_expr op lhs rhs =>
      u ← eval_on x lhs; v ← eval_on x rhs; binary_op_apply op u v
  end.

(** The lengths of the vectors of a store. *)
Definition shape (st : store) : tenv := length <$> st.

Definition keeps_shape {A} (m : M A) : Prop :=
  ∀ st r st', m st = Some (r, st') → shape st' = shape st.

(** The store holds exactly the declared vectors, each with its declared
    length, and no declared length is zero. *)
Definition well_shaped (Γ : tenv) (st : store) : Prop :=
  shape st = Γ ∧ map_Forall (λ _ n, 0 < n) Γ.

Definition eval_all (st : store) (o : operand) (n : nat) : option (list T) :=
  mapM (eval st o) (seq 0 n).

(** Every operator application inside [o] has a defined result at index
    [i]: no division there is one of those [T] gives no result for. *)
Fixpoint arith_defined (st : store) (o : operand) (i : nat) : Prop :=
  match o with
  | vec _ | scalar _ => True
  | fast_vector_expr op lhs rhs =>
      arith_defined st lhs i ∧ arith_defined st rhs i ∧
      ∀ x y, eval st lhs i = Some x → eval st rhs i = Some y →
             is_Some (binary_op_apply op x y)
  end.

(** A value every element can be divided by. *)
Definition safe_divisor (s : T) : Prop := ∀ x, is_Some (t_div x s).

(** Every division in [o] is by a scalar that is a safe divisor: the
    arithmetic of [o] cannot fail, whatever the vectors hold. *)
Fixpoint total_arith (o : operand) : Prop :=
  match o with
  | vec _ | scalar _ => True
  | fast_vector_expr op lhs rhs =>
      total_arith lhs ∧ total_arith rhs ∧
      (op = div_binary_op → ∃ s, rhs = scalar s ∧ safe_divisor s)
  end.

End model.

(** ** Concrete vectors over [int] *)

Module Scenario.
Local Open Scope Z_scope.

(** Some content for storage not yet written. *)
Definition junk : nat → nat → Z := λ _ _, (-77).

(** Vectors 0, 1 and 2 stand for [a], [b] and a destination. *)
Definition st_123 : gmap nat (list Z) :=
  {[ 0%nat := [1; 2; 3]; 1%nat := [4; 5; 6]; 2%nat := [0; 0; 0] ]}.

Definition st_111 : gmap nat (list Z) :=
  {[ 0%nat := [1; 1; 1]; 1%nat := [1; 1; 1]; 2%nat := [0; 0; 0] ]}.

Definition st_468 : gmap nat (list Z) := {[ 0%nat := [4; 6; 8] ]}.

(** [a] with three elements, a destination with five. *)
Definition st_mismatch : gmap nat (list Z) :=
  {[ 0%nat := [1; 1; 1]; 1%nat := [0; 0; 0; 0; 0] ]}.

(** [(a + b) * 2] *)
Definition sum_twice : operand :=
  op_mul_scalar (op_plus (vec 0) (vec 1)) 2.

(** What vector [a] holds after program [p], when [p] is accepted and
    runs to its end. *)
Definition result_of (p : list stmt) (a : nat) : option (list Z) :=
  match run junk p with
  | Some (Some st) => st !! a
  | _ => None
  end.

(** [fast_vector<int,3> a, b; a = (1,2,3); b = (4,5,6);] *)
Definition decl_ab : list stmt :=
  [ SDecl 0 3; SSetAt 0 0 (by_value 1); SSetAt 0 1 (by_value 2);
    SSetAt 0 2 (by_value 3);
    SDecl 1 3; SSetAt 1 0 (by_value 4); SSetAt 1 1 (by_value 5);
    SSetAt 1 2 (by_value 6) ].

(** Scenario 1: [c(a + b); d(a - b); f(a * 2);] *)
Definition prog_scenario1 : list stmt :=
  decl_ab ++
  [ SInit 2 3 (obj (op_plus (vec 0) (vec 1)));
    SInit 3 3 (obj (op_minus (vec 0) (vec 1)));
    SInit 4 3 (obj (op_mul_scalar (vec 0) 2)) ].

(** Scenario 2: [a(4); a[1] = 6; a[2] = 8; a /= 2;] *)
Definition prog_scenario2 : list stmt :=
  [ SInit 0 3 (raw (by_value 4)); SSetAt 0 1 (by_value 6);
    SSetAt 0 2 (by_value 8); SDivAssign 0 (raw (by_value 2)) ].

(** Scenario 3: [a(1); b(1); c((a + b) * 2);] *)
Definition prog_scenario3 : list stmt :=
  [ SInit 0 3 (raw (by_value 1)); SInit 1 3 (raw (by_value 1));
    SInit 2 3 (obj sum_twice) ].

(** [fast_vector<int,3> a(1); fast_vector<int,5> c(0); c = a + a;] *)
Definition prog_mismatch : list stmt :=
  [ SInit 0 3 (raw (by_value 1)); SInit 1 5 (raw (by_value 0));
    SAssign 1 (obj (op_plus (vec 0) (vec 0))) ].

(** The environment, the action and the final store of scenario 1. *)
Definition env_scenario1 : gmap nat nat :=
  match compile_prog junk ∅ prog_scenario1 with
  | Some (Γ, _) => Γ
  | None => ∅
  end.

Definition action_scenario1 : M unit :=
  match compile_prog junk ∅ prog_scenario1 with
  | Some (_, m) => m
  | None => fail
  end.

Definition final_scenario1 : gmap nat (list Z) :=
  match action_scenario1 ∅ with
  | Some (_, st) => st
  | None => ∅
  end.

(** Two vectors of three elements. *)
Definition env_33 : gmap nat nat := {[ 0%nat := 3%nat; 1%nat := 3%nat ]}.

(** One of three, one of five. *)
Definition env_35 : gmap nat nat := {[ 0%nat := 3%nat; 1%nat := 5%nat ]}.

End Scenario.

(** ** Further notions for the rest of the vector *)

Section frames.
Context {T : Type} `{!Elem T}.

(** A computation that changes no vector but [a]. *)
Definition only_writes {A} (a : name) (m : M (T:=T) A) : Prop :=
  ∀ st r st', m st = Some (r, st') → ∀ c, c ≠ a → st' !! c = st !! c.

(** [t = e1; d = t op e2;]: an expression cut in two at a named
    temporary [t]. *)
Definition via_temporary (t d : name) (op : binary_op)
    (e1 e2 : operand (T:=T)) : M name :=
  assign_expr t e1;; assign_expr d (fast_vector_expr op (vec t) e2).

(** The statements in which every length that matters is fixed by a type
    and no arithmetic is done: declarations, moves, and filling with a
    plain value.  No expression, no division, no index and no reference
    to an element occurs. *)
Definition size_checked (s : stmt (T:=T)) : bool :=
  match s with
  | SDecl _ _ => true
  | SInit _ _ (raw (by_value _)) => true
  | SInit _ _ (moved _) => true
  | SAssign _ (raw (by_value _)) => true
  | SAssign _ (moved _) => true
  | _ => false
  end.

(** A reference that, if it points into a vector, points below index [N]. *)
Definition cref_below (N : nat) (r : cref (T:=T)) : bool :=
  match r with
  | by_value _ => true
  | element _ j => bool_decide (j < N)
  end.

(** An argument that names no index from [N] on and whose arithmetic
    cannot fail. *)
Definition argument_fits (N : nat) (x : argument (T:=T)) : Prop :=
  match x with
  | raw value => cref_below N value = true
  | obj o => total_arith o
  | moved _ => True
  end.

(** A statement of a program in which every vector has [N] elements: it
    declares only such vectors, names no index from [N] on, and divides
    only by plain values that are safe divisors. *)
Definition fits (N : nat) (s : stmt (T:=T)) : Prop :=
  match s with
  | SDecl _ Rows => Rows = N
  | SInit _ Rows x => Rows = N ∧ argument_fits N x
  | SAssign _ x | SAddAssign _ x => argument_fits N x
  | SDivAssign _ x => ∃ s, x = raw (by_value s) ∧ safe_divisor s
  | SSetAt _ i value => i < N ∧ cref_below N value = true
  end.

(** Every declared vector has [N] elements. *)
Definition uniform (N : nat) (Γ : tenv) : Prop :=
  map_Forall (λ _ n, n = N) Γ.

End frames.

(** ** The sizes of the recurrent layer

    [recurrent_layer_impl<Desc>] takes its dimensions from the descriptor;
    they are [size_t] values, 64 bits wide here, and [size_t] arithmetic
    wraps. *)
Module Layer.
Local Open Scope Z_scope.

Definition size_t_modulus : Z := 2 ^ 64.

Definition wrap (x : Z) : Z := x mod size_t_modulus.

Definition is_size_t (x : Z) : Prop := 0 ≤ x < size_t_modulus.

(** The members of [Desc] the layer reads. *)
Record desc := {
  time_steps : Z;
  sequence_length : Z;
  hidden_units : Z;
  Truncate : Z
}.

Definition desc_ok (d : desc) : Prop :=
  is_size_t (time_steps d) ∧ is_size_t (sequence_length d) ∧
  is_size_t (hidden_units d) ∧ is_size_t (Truncate d).

(** [bptt_steps = desc::Truncate == 0 ? time_steps : desc::Truncate] *)
Definition bptt_steps (d : desc) : Z :=
  if Truncate d =? 0 then time_steps d else Truncate d.

(** [input_size()] *)
Definition input_size (d : desc) : Z :=
  wrap (time_steps d * sequence_length d).

(** [output_size()] *)
Definition output_size (d : desc) : Z :=
  wrap (time_steps d * hidden_units d).

(** [parameters()] *)
Definition parameters (d : desc) : Z :=
  wrap (wrap (hidden_units d * hidden_units d)
        + wrap (hidden_units d * sequence_length d)).

(** A small layer: 5 time steps, sequences of 7, 3 hidden units. *)
Definition small : desc :=
  {| time_steps := 5; sequence_length := 7; hidden_units := 3; Truncate := 0 |}.

End Layer.

(** ** More concrete vectors *)

Module Scenario2.
Local Open Scope Z_scope.

(** [a] = (1,2,3), [b] = (4,5,6), a temporary and a destination. *)
Definition st_tmp : gmap nat (list Z) :=
  {[ 0%nat := [1; 2; 3]; 1%nat := [4; 5; 6];
     2%nat := [0; 0; 0]; 3%nat := [9; 9; 9] ]}.

(** [a] = (1,2,3) and a vector of three 2s. *)
Definition st_twos : gmap nat (list Z) :=
  {[ 0%nat := [1; 2; 3]; 1%nat := [2; 2; 2]; 2%nat := [0; 0; 0] ]}.

Definition env_333 : gmap nat nat :=
  {[ 0%nat := 3%nat; 1%nat := 3%nat; 2%nat := 3%nat ]}.

(** A dividend and a divisor that [int] cannot divide. *)
Definition st_overflow : gmap nat (list Z) :=
  {[ 0%nat := [int_min]; 1%nat := [-1]; 2%nat := [0] ]}.

(** Dividends (7,-9,8), divisors (2,4,-1), and a destination. *)
Definition st_div : gmap nat (list Z) :=
  {[ 0%nat := [7; -9; 8]; 1%nat := [2; 4; -1]; 2%nat := [0; 0; 0] ]}.

(** The environment and the action of scenario 2. *)
Definition env_scenario2 : gmap nat nat :=
  match compile_prog Scenario.junk ∅ Scenario.prog_scenario2 with
  | Some (Γ, _) => Γ
  | None => ∅
  end.

Definition action_scenario2 : M unit :=
  match compile_prog Scenario.junk ∅ Scenario.prog_scenario2 with
  | Some (_, m) => m
  | None => fail
  end.

(** Just [a] = (1,2,3) and [b] = (4,5,6). *)
Definition st_pair : gmap nat (list Z) :=
  {[ 0%nat := [1; 2; 3]; 1%nat := [4; 5; 6] ]}.

End Scenario2.

(** ** Running the monad *)

Section run_laws.
Context {T : Type} `{!Elem T}.
Local Abbreviation store := (gmap nat (list T)).

Lemma run_bind {A B} (m : M A) (f : A → M B) (st : store) :
  (m ≫= f) st = match m st with Some (a, st') => f a st' | None => None end.
Proof. reflexivity. Qed.

Lemma run_ret {A} (a : A) (st : store) : mret (M:=M) a st = Some (a, st).
Proof. reflexivity. Qed.

Lemma run_size a (st : store) :
  size a st = match st !! a with Some v => Some (length v, st) | None => None end.
Proof. unfold size. by destruct (st !! a). Qed.

Lemma run_size_Some a (st : store) v :
  st !! a = Some v → size a st = Some (length v, st).
Proof. intros Hv. by rewrite run_size, Hv. Qed.

Lemma run_data_get a i (st : store) :
  data_get a i st = x ← (st !! a ≫= (.!! i)); Some (x, st).
Proof. unfold data_get. by destruct (st !! a). Qed.

(** Inside its bounds the checked accessor is the plain array read, and
    outside both fail. *)
Lemma run_vec_at a i (st : store) : vec_at a i st = data_get a i st.
Proof.
  unfold vec_at. rewrite run_bind, run_size, run_data_get.
  destruct (st !! a) as [v|] eqn:Hv; [|done].
  rewrite run_bind. unfold dbn_assert. case_bool_decide as Hi; simpl.
  - by rewrite run_data_get, Hv.
  - unfold fail. by rewrite lookup_ge_None_2 by lia.
Qed.

Lemma run_data_set a i x (st : store) v :
  st !! a = Some v → i < length v →
  data_set a i x st = Some (tt, <[a := <[i := x]> v]> st).
Proof. intros Hv Hi. unfold data_set. rewrite Hv. simpl. by rewrite decide_True. Qed.

Lemma run_deref_by_value v (st : store) : deref (by_value v) st = Some (v, st).
Proof. reflexivity. Qed.

Lemma run_compute {A} (r : option A) (st : store) :
  compute r st = x ← r; Some (x, st).
Proof. by destruct r. Qed.

Lemma for_loop_S i k (body : nat → M unit) (st : store) :
  for_loop i (S k) body st =
  match body i st with Some (_, st') => for_loop (S i) k body st' | None => None end.
Proof. reflexivity. Qed.

(** The loop is its body at [i], [i+1], ..., [i+k-1], each once, in order. *)
Lemma for_loop_seq i k (body : nat → M unit) (st : store) :
  for_loop i k body st = run_each body (seq i k) st.
Proof.
  revert i st. induction k as [|k IH]; intros i st; [done|].
  rewrite for_loop_S. simpl. rewrite run_bind.
  destruct (body i st) as [[[] st']|]; [apply IH | done].
Qed.

(** *** Indexing an operand reads and does nothing else *)

Lemma index_pure (o : operand) i (st : store) :
  index o i st = None ∨ ∃ x, index o i st = Some (x, st).
Proof.
  induction o as [a|v|op l IHl r IHr]; simpl.
  - rewrite run_vec_at, run_data_get.
    destruct (st !! a ≫= (.!! i)); simpl; eauto.
  - right. by exists v.
  - rewrite run_bind. destruct IHl as [->|[x ->]]; [by left|].
    rewrite run_bind. destruct IHr as [->|[y ->]]; [by left|].
    rewrite run_compute.
    destruct (binary_op_apply op x y) as [z|]; simpl; eauto.
Qed.

Lemma run_index (o : operand) i (st : store) :
  index o i st = x ← eval st o i; Some (x, st).
Proof.
  unfold eval. by destruct (index_pure o i st) as [->|[x ->]].
Qed.

Lemma eval_vec (st : store) a i : eval st (vec a) i = cell st a i.
Proof.
  unfold eval, cell. simpl. rewrite run_vec_at, run_data_get.
  by destruct (st !! a ≫= (.!! i)).
Qed.

Lemma eval_scalar (st : store) v i : eval st (scalar v) i = Some v.
Proof. reflexivity. Qed.

Lemma eval_expr (st : store) op l r i :
  eval st (fast_vector_expr op l r) i =
  x ← eval st l i; y ← eval st r i; binary_op_apply op x y.
Proof.
  unfold eval at 1. simpl. rewrite run_bind, run_index.
  destruct (eval st l i) as [x|]; [simpl|done].
  rewrite run_bind, run_index.
  destruct (eval st r i) as [y|]; [simpl|done].
  rewrite run_compute. by destruct (binary_op_apply op x y).
Qed.

(** The value at index [i] depends on element [i] of the vectors referred
    to, and on nothing else in the store. *)
Lemma eval_ext (st1 st2 : store) o i :
  (∀ a, a ∈ vec_refs o → cell st1 a i = cell st2 a i) →
  eval st1 o i = eval st2 o i.
Proof.
  induction o as [a|v|op l IHl r IHr]; simpl; intros Hc.
  - rewrite !eval_vec. apply Hc. set_solver.
  - done.
  - rewrite !eval_expr, IHl, IHr; [done| |]; intros a Ha; apply Hc; set_solver.
Qed.

Lemma cell_is_Some (st : store) a i :
  is_Some (cell st a i) ↔ ∃ v, st !! a = Some v ∧ i < length v.
Proof.
  unfold cell. destruct (st !! a) as [v|]; simpl.
  - rewrite lookup_lt_is_Some. split; [by exists v | by intros (? & [= <-] & ?)].
  - split; [by intros [? ?] | by intros (? & ? & ?)].
Qed.

(** Reading succeeds only inside every vector read. *)
Lemma eval_cells (st : store) o i :
  is_Some (eval st o i) → ∀ a, a ∈ vec_refs o → is_Some (cell st a i).
Proof.
  induction o as [a|v|op l IHl r IHr]; simpl.
  - rewrite eval_vec. intros Hc b Hb. by apply list_elem_of_singleton in Hb as ->.
  - intros _ a Ha. by apply not_elem_of_nil in Ha.
  - rewrite eval_expr. intros [z Hz] a Ha.
    destruct (eval st l i) as [x|] eqn:Hx; [simpl in Hz|done].
    destruct (eval st r i) as [y|] eqn:Hy; [|done].
    apply elem_of_app in Ha as [Ha|Ha]; [apply IHl | apply IHr]; eauto.
Qed.

(** Reading succeeds exactly when it stays inside every vector read and
    each operator application has a result. *)
Lemma eval_is_Some (st : store) o i :
  is_Some (eval st o i) ↔
  (∀ a, a ∈ vec_refs o → is_Some (cell st a i)) ∧ arith_defined st o i.
Proof.
  induction o as [a|v|op l IHl r IHr]; simpl.
  - rewrite eval_vec. split.
    + intros Hc. split; [|done].
      intros b Hb. by apply list_elem_of_singleton in Hb as ->.
    + intros [Hc _]. apply Hc, list_elem_of_singleton, eq_refl.
  - rewrite eval_scalar. split; [|eauto].
    intros _. split; [|done]. intros a Ha. by apply not_elem_of_nil in Ha.
  - rewrite eval_expr. split.
    + intros [z Hz].
      destruct (eval st l i) as [x|] eqn:Hx; [simpl in Hz|done].
      destruct (eval st r i) as [y|] eqn:Hy; [simpl in Hz|done].
      destruct (proj1 IHl) as [Hcl Hal]; [eauto|].
      destruct (proj1 IHr) as [Hcr Har]; [eauto|].
      split; [|split; [done|split; [done|]]].
      * intros a Ha. apply elem_of_app in Ha as [Ha|Ha]; auto.
      * intros x' y' [= <-] [= <-]. eauto.
    + intros (Hc & Hal & Har & Hop).
      destruct (proj2 IHl) as [x Hx];
        [split; [intros a Ha; apply Hc, elem_of_app; auto|done]|].
      destruct (proj2 IHr) as [y Hy];
        [split; [intros a Ha; apply Hc, elem_of_app; auto|done]|].
      rewrite Hx, Hy. simpl. by apply Hop.
Qed.

(** Whether the arithmetic is defined depends on the same elements. *)
Lemma arith_defined_ext (st1 st2 : store) o i :
  (∀ a, a ∈ vec_refs o → cell st1 a i = cell st2 a i) →
  arith_defined st1 o i → arith_defined st2 o i.
Proof.
  induction o as [a|v|op l IHl r IHr]; simpl; intros Hc; [done..|].
  intros (Hal & Har & Hop).
  assert (∀ a, a ∈ vec_refs l → cell st1 a i = cell st2 a i) as Hcl
    by (intros a Ha; apply Hc, elem_of_app; auto).
  assert (∀ a, a ∈ vec_refs r → cell st1 a i = cell st2 a i) as Hcr
    by (intros a Ha; apply Hc, elem_of_app; auto).
  split; [auto|]. split; [auto|].
  intros x y Hx Hy. apply Hop.
  - by rewrite (eval_ext st1 st2 l i Hcl).
  - by rewrite (eval_ext st1 st2 r i Hcr).
Qed.

(** With safe scalar divisors only, the arithmetic is defined in every
    store and at every index. *)
Lemma total_arith_defined (st : store) o i :
  total_arith o → arith_defined st o i.
Proof.
  induction o as [a|v|op l IHl r IHr]; simpl; [done..|].
  intros (Htl & Htr & Hdiv). split; [auto|]. split; [auto|].
  intros x y Hx Hy. destruct op; simpl; eauto.
  destruct (Hdiv eq_refl) as (s & -> & Hsafe).
  rewrite eval_scalar in Hy. injection Hy as <-. apply Hsafe.
Qed.

(** *** A store in the middle of a loop over the rows of [d]

    After the iterations below [i] the store is the initial one with the
    first [i] elements of [d] replaced. *)

Lemma cell_partial (st0 : store) d vd done a i :
  st0 !! d = Some vd → length done = i →
  cell (<[d := done ++ drop i vd]> st0) a i = cell st0 a i.
Proof.
  intros Hd Hlen. unfold cell. destruct (decide (a = d)) as [->|Hne].
  - rewrite lookup_insert_eq, Hd. simpl.
    rewrite lookup_app_r by lia. rewrite lookup_drop. f_equal. lia.
  - by rewrite lookup_insert_ne.
Qed.

Lemma eval_partial (st0 : store) d vd done o i :
  st0 !! d = Some vd → length done = i →
  eval (<[d := done ++ drop i vd]> st0) o i = eval st0 o i.
Proof. intros Hd Hlen. apply eval_ext. intros a _. by eapply cell_partial. Qed.

Lemma data_set_partial (st0 : store) d vd done i x :
  length done = i → i < length vd →
  data_set d i x (<[d := done ++ drop i vd]> st0) =
  Some (tt, <[d := (done ++ [x]) ++ drop (S i) vd]> st0).
Proof.
  intros Hlen Hi.
  erewrite run_data_set; [|apply lookup_insert_eq|].
  - rewrite insert_insert_eq. do 3 f_equal.
    rewrite insert_app_r_alt by lia.
    replace (i - length done) with 0 by lia.
    rewrite <-(assoc_L (++)). f_equal.
    destruct (lookup_lt_is_Some_2 vd i) as [y Hy]; [lia|].
    by rewrite (drop_S _ _ _ Hy).
  - rewrite length_app, length_drop. lia.
Qed.

(** [mapM] over a range, index by index. *)
Lemma mapM_seq_Some (g : nat → option T) n (l : list T) :
  mapM g (seq 0 n) = Some l ↔ length l = n ∧ ∀ i, i < n → g i = l !! i.
Proof.
  rewrite mapM_Some, Forall2_lookup. split.
  - intros Hall. assert (length l = n) as Hlen.
    { destruct (decide (length l = n)) as [|Hne]; [done|exfalso].
      destruct (decide (length l < n)) as [Hlt|Hge].
      - specialize (Hall (length l)).
        rewrite (lookup_ge_None_2 l) in Hall by lia.
        rewrite (lookup_seq_lt 0 n (length l)) in Hall by lia. inversion Hall.
      - specialize (Hall n).
        rewrite (lookup_ge_None_2 (seq 0 n)) in Hall by (rewrite length_seq; lia).
        destruct (lookup_lt_is_Some_2 l n) as [y Hy]; [lia|].
        rewrite Hy in Hall. inversion Hall. }
    split; [done|]. intros i Hi. specialize (Hall i).
    rewrite lookup_seq_lt in Hall by lia. inversion Hall as [? y Hg Hs Hl|]. done.
  - intros [Hlen Hg] i. destruct (decide (i < n)) as [Hi|Hi].
    + rewrite lookup_seq_lt by lia.
      destruct (lookup_lt_is_Some_2 l i) as [y Hy]; [lia|].
      rewrite Hy. constructor. simpl. by rewrite Hg, Hy.
    + rewrite (lookup_ge_None_2 l), (lookup_ge_None_2 (seq 0 n))
        by (rewrite ?length_seq; lia). constructor.
Qed.

Lemma mapM_seq_is_Some (g : nat → option T) n :
  is_Some (mapM g (seq 0 n)) ↔ ∀ i, i < n → is_Some (g i).
Proof.
  rewrite mapM_is_Some, Forall_lookup. split.
  - intros Hall i Hi. apply (Hall i i). by rewrite lookup_seq_lt.
  - intros Hg i x Hx. apply lookup_seq in Hx as [-> Hi]. by apply Hg.
Qed.

(** The loop over the rows of [d], for a body that at index [i] stores
    into [d[i]] a value [g i] fixed by the initial store.  [done] holds the
    elements already written. *)
Lemma for_loop_partial (st0 : store) d vd (body : nat → M unit) (g : nat → option T) :
  st0 !! d = Some vd →
  (∀ done i, length done = i → (∀ j, j < i → g j = done !! j) → i < length vd →
     body i (<[d := done ++ drop i vd]> st0) =
     x ← g i; Some (tt, <[d := (done ++ [x]) ++ drop (S i) vd]> st0)) →
  ∀ k i done, i + k = length vd → length done = i → (∀ j, j < i → g j = done !! j) →
    for_loop i k body (<[d := done ++ drop i vd]> st0) =
    rest ← mapM g (seq i k); Some (tt, <[d := done ++ rest]> st0).
Proof.
  intros Hd Hbody. induction k as [|k IH]; intros i done Hik Hlen Hdone.
  - simpl. rewrite drop_ge by lia. reflexivity.
  - rewrite for_loop_S, Hbody by (done || lia). simpl.
    destruct (g i) as [x|] eqn:Hx; [simpl|done].
    rewrite IH.
    + destruct (mapM g (seq (S i) k)) as [rest|]; [simpl|done].
      by rewrite <-(assoc_L (++)).
    + lia.
    + rewrite length_app. simpl. lia.
    + intros j Hj. destruct (decide (j = i)) as [->|Hne].
      * rewrite lookup_app_r by lia. replace (i - length done) with 0 by lia. done.
      * rewrite lookup_app_l by lia. apply Hdone. lia.
Qed.

Lemma for_rows_columns (st0 : store) d vd (body : nat → M unit) (g : nat → option T) :
  st0 !! d = Some vd →
  (∀ done i, length done = i → (∀ j, j < i → g j = done !! j) → i < length vd →
     body i (<[d := done ++ drop i vd]> st0) =
     x ← g i; Some (tt, <[d := (done ++ [x]) ++ drop (S i) vd]> st0)) →
  for_rows d body st0 =
  vals ← mapM g (seq 0 (length vd)); Some (tt, <[d := vals]> st0).
Proof.
  intros Hd Hbody. unfold for_rows.
  rewrite run_bind, (run_size_Some _ _ _ Hd).
  rewrite <-(insert_id st0 d vd Hd) at 1.
  apply (for_loop_partial st0 d vd body g Hd Hbody (length vd) 0 []); [lia|done|].
  intros j Hj. lia.
Qed.

Lemma for_rows_None (st : store) d (body : nat → M unit) :
  st !! d = None → for_rows d body st = None.
Proof. intros Hd. unfold for_rows. by rewrite run_bind, run_size, Hd. Qed.

(** *** The loops of the members, in closed form *)

Lemma run_materialize (st : store) d vd e :
  st !! d = Some vd →
  materialize d e st =
  vals ← eval_all st e (length vd); Some (tt, <[d := vals]> st).
Proof.
  intros Hd. unfold materialize, eval_all.
  apply for_rows_columns; [done|]. intros done i Hlen _ Hi.
  rewrite run_bind, run_index, (eval_partial st d vd) by done.
  destruct (eval st e i) as [x|]; [simpl|done].
  by apply data_set_partial.
Qed.

Lemma run_add_assign (st : store) a va rhs :
  st !! a = Some va →
  add_assign a rhs st =
  vals ← mapM (λ i, r ← eval st rhs i; x ← va !! i; Some (t_add x r))
         (seq 0 (length va));
  Some (a, <[a := vals]> st).
Proof.
  intros Ha. unfold add_assign. rewrite run_bind.
  rewrite (for_rows_columns st a va _
    (λ i, r ← eval st rhs i; x ← va !! i; Some (t_add x r)) Ha).
  { by destruct (mapM _ _). }
  intros done i Hlen _ Hi.
  rewrite run_bind, run_index, (eval_partial st a va) by done.
  destruct (eval st rhs i) as [r|]; [simpl|done].
  rewrite run_bind, run_data_get.
  change (<[a:=done ++ drop i va]> st !! a ≫= (.!! i))
    with (cell (<[a:=done ++ drop i va]> st) a i).
  rewrite (cell_partial st a va) by done. unfold cell. rewrite Ha. simpl.
  destruct (va !! i) as [x|] eqn:Hx; [simpl|by apply lookup_ge_None in Hx; lia].
  by apply data_set_partial.
Qed.

Lemma run_deref (st : store) value :
  deref value st = x ← referent st value; Some (x, st).
Proof. destruct value as [v|b j]; [done|]. simpl. by rewrite run_data_get. Qed.

Lemma referent_partial (st0 : store) a va done i value x :
  st0 !! a = Some va → length done = i →
  (∀ j, j < i → done !! j = Some x) →
  referent st0 value = Some x →
  referent (<[a := done ++ drop i va]> st0) value = Some x.
Proof.
  intros Ha Hlen Hdone. destruct value as [v|b j]; [done|]. simpl. unfold cell.
  destruct (decide (b = a)) as [->|Hne].
  - rewrite lookup_insert_eq, Ha. simpl. intros Hx.
    destruct (decide (j < i)) as [Hj|Hj].
    + rewrite lookup_app_l by lia. by apply Hdone.
    + rewrite lookup_app_r, lookup_drop by lia. rewrite <-Hx. f_equal. lia.
  - by rewrite lookup_insert_ne.
Qed.

Lemma referent_other (st0 : store) a v value :
  ¬ aliases value a → referent (<[a := v]> st0) value = referent st0 value.
Proof.
  destruct value as [x|b j]; [done|]. simpl. intros Hne. unfold cell.
  by rewrite lookup_insert_ne by congruence.
Qed.

Lemma run_std_fill (st : store) a va value x :
  st !! a = Some va → referent st value = Some x →
  std_fill a value st = Some (tt, <[a := replicate (length va) x]> st).
Proof.
  intros Ha Hx. unfold std_fill.
  rewrite (for_rows_columns st a va _ (λ _, Some x) Ha).
  - assert (mapM (λ _ : nat, Some x) (seq 0 (length va))
            = Some (replicate (length va) x)) as ->; [|done].
    apply mapM_seq_Some. split; [apply length_replicate|].
    intros i Hi. symmetry. by apply lookup_replicate_2.
  - intros done i Hlen Hdone Hi.
    rewrite run_bind, run_deref.
    rewrite (referent_partial st a va done i value x) by (done || (intros; by rewrite <-Hdone)).
    simpl. by apply data_set_partial.
Qed.

(** A function applied to the elements of a list, by index. *)
Lemma mapM_lookup_seq (f : T → option T) (h : nat → option T) (va : list T) j :
  (∀ i, i < length va → h (j + i) = va !! i) →
  mapM (λ i, h i ≫= f) (seq j (length va)) = mapM f va.
Proof.
  revert j. induction va as [|x va IH]; intros j Hh; [done|].
  simpl. rewrite <-(Nat.add_0_r j) at 1. rewrite (Hh 0) by (simpl; lia).
  simpl. rewrite (IH (S j)); [done|].
  intros i Hi. replace (S j + i) with (j + S i) by lia.
  apply (Hh (S i)). simpl. lia.
Qed.

Lemma mapM_pointwise_seq (f g : nat → option T) n :
  (∀ i, i < n → f i = g i) → mapM f (seq 0 n) = mapM g (seq 0 n).
Proof.
  intros Hfg.
  destruct (mapM g (seq 0 n)) as [l|] eqn:Hg.
  - apply mapM_seq_Some in Hg as [Hlen Hi]. apply mapM_seq_Some.
    split; [done|]. intros i Hlt. rewrite Hfg by done. by apply Hi.
  - destruct (mapM f (seq 0 n)) as [l|] eqn:Hf; [|done].
    apply mapM_seq_Some in Hf as [Hlen Hi].
    assert (mapM g (seq 0 n) = Some l) as Hg'; [|congruence].
    apply mapM_seq_Some. split; [done|].
    intros i Hlt. rewrite <-Hfg by done. by apply Hi.
Qed.

(** [a /= value] for a reference that is not into [a]: every element is
    divided by the same [s], and the run has a result exactly when every
    one of these divisions has. *)
Lemma run_div_assign (st : store) a va value s :
  st !! a = Some va → referent st value = Some s → ¬ aliases value a →
  div_assign a value st =
  vals ← mapM (λ x, t_div x s) va; Some (a, <[a := vals]> st).
Proof.
  intros Ha Hs Hna. unfold div_assign. rewrite run_bind.
  rewrite (for_rows_columns st a va _ (λ i, va !! i ≫= λ x, t_div x s) Ha).
  - rewrite (mapM_lookup_seq (λ x, t_div x s) (λ i, va !! i) va 0) by done.
    by destruct (mapM _ va).
  - intros done i Hlen _ Hi.
    rewrite run_bind, run_deref, referent_other, Hs by done. simpl.
    rewrite run_bind, run_data_get.
    change (<[a:=done ++ drop i va]> st !! a ≫= (.!! i))
      with (cell (<[a:=done ++ drop i va]> st) a i).
    rewrite (cell_partial st a va) by done. unfold cell. rewrite Ha. simpl.
    destruct (va !! i) as [x|] eqn:Hx; [simpl|by apply lookup_ge_None in Hx; lia].
    rewrite run_bind, run_compute.
    destruct (t_div x s) as [q|]; [simpl|done].
    by apply data_set_partial.
Qed.

End run_laws.

(** ** The laws of the vector operations *)

Section laws.
Context {T : Type} `{!Elem T}.
Context (indeterminate : nat → nat → T).
Local Abbreviation store := (gmap nat (list T)).

Lemma eval_all_Some (st : store) e n vals :
  eval_all st e n = Some vals ↔
  length vals = n ∧ ∀ i, i < n → eval st e i = vals !! i.
Proof. apply mapM_seq_Some. Qed.

Lemma eval_all_total (st : store) e n :
  (∀ i, i < n → is_Some (eval st e i)) →
  ∃ vals, eval_all st e n = Some vals ∧ length vals = n ∧
          ∀ i, i < n → vals !! i = eval st e i.
Proof.
  intros Hall. destruct (proj2 (mapM_seq_is_Some (eval st e) n) Hall) as [vals Hv].
  exists vals. split; [done|].
  apply eval_all_Some in Hv as [Hlen Hi]. split; [done|].
  intros i Hlt. symmetry. by apply Hi.
Qed.

Lemma run_alloc (st : store) c Rows :
  alloc indeterminate c Rows st =
  Some (tt, <[c := indeterminate c <$> seq 0 Rows]> st).
Proof. reflexivity. Qed.

(** A new vector is not among the operands that can be read. *)
Lemma eval_fresh (st : store) c v e i :
  st !! c = None → is_Some (eval st e i) →
  eval (<[c := v]> st) e i = eval st e i.
Proof.
  intros Hc Hsome. apply eval_ext. intros a Ha. unfold cell.
  destruct (decide (a = c)) as [->|Hne]; [|by rewrite lookup_insert_ne].
  apply eval_cells with (a := c) in Hsome; [|done].
  apply cell_is_Some in Hsome as (w & Hw & _). congruence.
Qed.

Lemma run_construct_expr (st : store) c Rows e vals :
  st !! c = None → eval_all st e Rows = Some vals →
  construct_expr indeterminate c Rows e st = Some (tt, <[c := vals]> st).
Proof.
  intros Hc Hv. unfold construct_expr. rewrite run_bind, run_alloc.
  erewrite run_materialize by apply lookup_insert_eq.
  rewrite length_fmap, length_seq.
  assert (eval_all (<[c := indeterminate c <$> seq 0 Rows]> st) e Rows
          = Some vals) as ->.
  { apply eval_all_Some in Hv as [Hlen Hi]. apply eval_all_Some.
    split; [done|]. intros i Hlt. rewrite <-(Hi i Hlt).
    apply eval_fresh; [done|]. rewrite (Hi i Hlt).
    apply lookup_lt_is_Some. lia. }
  simpl. by rewrite insert_insert_eq.
Qed.

(** C1.  Assigning an expression [e] into a vector [d] of length N, or
    constructing a new vector [c] of length [Rows] from it, stores at every
    index below the length exactly the value [e] has at that index in the
    store before the operation (the operator applied to both operands
    evaluated at that index), provided [e] can be evaluated there; and the
    loop is its body run at 0, 1, ..., N-1, once each, in this order. *)
Theorem expr_materialization_law (st : store) (d c : nat) (vd : list T)
    (Rows : nat) (e : operand) :
  st !! d = Some vd →
  st !! c = None →
  ((∀ i, i < length vd → is_Some (eval st e i)) →
     ∃ vals, assign_expr d e st = Some (d, <[d := vals]> st) ∧
             length vals = length vd ∧
             ∀ i, i < length vd → vals !! i = eval st e i)
  ∧ ((∀ i, i < Rows → is_Some (eval st e i)) →
     ∃ vals, construct_expr indeterminate c Rows e st = Some (tt, <[c := vals]> st) ∧
             length vals = Rows ∧
             ∀ i, i < Rows → vals !! i = eval st e i)
  ∧ materialize d e st =
    run_each (λ i, x ← index e i; data_set d i x) (seq 0 (length vd)) st
  ∧ (∀ op lhs rhs i,
       eval st (fast_vector_expr op lhs rhs) i =
       x ← eval st lhs i; y ← eval st rhs i; binary_op_apply op x y).
Proof.
  intros Hd Hc. repeat split.
  - intros Hall. destruct (eval_all_total st e _ Hall) as (vals & Hv & Hlen & Hi).
    exists vals. split; [|done].
    unfold assign_expr. by rewrite run_bind, (run_materialize st d vd), Hv.
  - intros Hall. destruct (eval_all_total st e _ Hall) as (vals & Hv & Hlen & Hi).
    exists vals. split; [|done]. by apply run_construct_expr.
  - unfold materialize, for_rows.
    rewrite run_bind, (run_size_Some _ _ _ Hd). apply for_loop_seq.
  - intros. apply eval_expr.
Qed.

(** C4.  For vectors [a] and [b] of equal length, [a += b] leaves in [a]
    at every index the sum of the previous element of [a] and the element
    of [b], and returns [a] itself.  [b] may be [a]. *)
Theorem add_assign_vector_law (st : store) (a b : nat) (va vb : list T) :
  st !! a = Some va →
  st !! b = Some vb →
  length va = length vb →
  ∃ va', add_assign a (vec b) st = Some (a, <[a := va']> st) ∧
         length va' = length va ∧
         ∀ i x y, va !! i = Some x → vb !! i = Some y →
                  va' !! i = Some (t_add x y).
Proof.
  intros Ha Hb Hlen. exists (zip_with t_add va vb). split; [|split].
  - rewrite (run_add_assign st a va) by done.
    assert (mapM (λ i, r ← eval st (vec b) i; x ← va !! i; Some (t_add x r))
              (seq 0 (length va)) = Some (zip_with t_add va vb)) as ->; [|done].
    apply mapM_seq_Some. split.
    + rewrite length_zip_with. lia.
    + intros i _. rewrite eval_vec, lookup_zip_with. unfold cell.
      rewrite Hb. simpl. by destruct (va !! i), (vb !! i).
  - rewrite length_zip_with. lia.
  - intros i x y Hx Hy. by rewrite lookup_zip_with, Hx, Hy.
Qed.

(** C5.  A [scalar] answers every index with its value and leaves the
    store alone; [a * s] has at index [i] the value [a[i] * s]; assigned
    into a vector as long as [a] it gives the elements of [a], each
    multiplied by [s]. *)
Theorem scalar_broadcast_law (st : store) (a d : nat) (va vd : list T) (s : T) :
  st !! a = Some va →
  st !! d = Some vd →
  length vd = length va →
  (∀ i st', index (scalar s) i st' = Some (s, st'))
  ∧ (∀ i, eval st (op_mul_scalar (vec a) s) i = (λ x, t_mul x s) <$> va !! i)
  ∧ assign_expr d (op_mul_scalar (vec a) s) st =
    Some (d, <[d := (λ x, t_mul x s) <$> va]> st).
Proof.
  intros Ha Hd Hlen.
  assert (∀ i, eval st (op_mul_scalar (vec a) s) i = (λ x, t_mul x s) <$> va !! i) as Hev.
  { intros i. unfold op_mul_scalar. rewrite eval_expr, eval_vec, eval_scalar.
    unfold cell. rewrite Ha. simpl. by destruct (va !! i). }
  split; [done|]. split; [done|].
  unfold assign_expr. rewrite run_bind, (run_materialize st d vd) by done.
  assert (eval_all st (op_mul_scalar (vec a) s) (length vd)
          = Some ((λ x, t_mul x s) <$> va)) as ->; [|done].
  apply eval_all_Some. split; [by rewrite length_fmap|].
  intros i _. by rewrite Hev, list_lookup_fmap.
Qed.

Lemma eval_eval_on (st : store) a va rhs i x :
  st !! a = Some va → va !! i = Some x →
  (∀ b, b ∈ vec_refs rhs → b = a) →
  eval st rhs i = eval_on x rhs.
Proof.
  intros Ha Hx. induction rhs as [b|v|op l IHl r IHr]; simpl; intros Hrefs.
  - rewrite eval_vec. unfold cell.
    rewrite (Hrefs b) by apply list_elem_of_singleton, eq_refl.
    by rewrite Ha.
  - done.
  - rewrite eval_expr, IHl, IHr; [done| |];
      intros b Hb; apply Hrefs, elem_of_app; auto.
Qed.

(** C6.  When the right-hand side of [a += e] reads no vector but [a],
    every element [x] of [a] becomes [x] plus the value of [e] computed
    from that same previous [x]: at each index the read comes before the
    write, and earlier writes are at other indices.  The update has a
    result exactly when [e] has a value on every element. *)
Theorem add_assign_self_reference (st : store) (a : nat) (va : list T) (e : operand) :
  st !! a = Some va →
  (∀ b, b ∈ vec_refs e → b = a) →
  add_assign a e st =
    (vals ← mapM (λ x, r ← eval_on x e; Some (t_add x r)) va;
     Some (a, <[a := vals]> st))
  ∧ (∀ i x, va !! i = Some x → eval st e i = eval_on x e)
  ∧ ((∀ x, x ∈ va → is_Some (eval_on x e)) →
     ∃ vals, add_assign a e st = Some (a, <[a := vals]> st) ∧
             length vals = length va ∧
             ∀ i x, va !! i = Some x →
                    ∃ r, eval_on x e = Some r ∧ vals !! i = Some (t_add x r)).
Proof.
  intros Ha Hrefs.
  assert (add_assign a e st =
            (vals ← mapM (λ x, r ← eval_on x e; Some (t_add x r)) va;
             Some (a, <[a := vals]> st))) as Hrun.
  { rewrite (run_add_assign st a va) by done.
    rewrite <-(mapM_lookup_seq (λ x, r ← eval_on x e; Some (t_add x r))
                 (λ i, va !! i) va 0) by done.
    rewrite (mapM_pointwise_seq _
               (λ i, va !! i ≫= λ x, r ← eval_on x e; Some (t_add x r)));
      [done|].
    intros i Hi. destruct (lookup_lt_is_Some_2 va i Hi) as [x Hx].
    by rewrite (eval_eval_on st a va e i x), Hx by done. }
  split; [done|]. split; [intros i x Hx; by eapply eval_eval_on|].
  intros Hall.
  assert (is_Some (mapM (λ x, r ← eval_on x e; Some (t_add x r)) va)) as [vals Hvals].
  { apply mapM_is_Some, Forall_forall. intros x Hx.
    destruct (Hall x Hx) as [r Hr]. simpl. rewrite Hr. simpl. eauto. }
  exists vals. rewrite Hrun, Hvals. split; [done|].
  apply mapM_Some in Hvals. split; [symmetry; by eapply Forall2_length|].
  intros i x Hx.
  destruct (Forall2_lookup_l _ _ _ _ _ Hvals Hx) as (y & Hy & Hf).
  destruct (eval_on x e) as [r|]; [simpl in Hf|done].
  exists r. split; [done|]. by injection Hf as <-.
Qed.

(** C3 (as amended).  [/=] has one overload, for a [const T&]: no vector
    and no expression is accepted on the right-hand side.  For a divisor
    [s] that is not an element of [a] itself, the update has a result
    exactly when every element can be divided by [s]; each element is then
    its previous value divided by [s], and [a] is returned. *)
Theorem div_assign_scalar_law (st : store) (a : nat) (va : list T)
    (value : cref) (s : T) :
  st !! a = Some va →
  referent st value = Some s →
  ¬ aliases value a →
  div_assign a value st =
    (vals ← mapM (λ x, t_div x s) va; Some (a, <[a := vals]> st))
  ∧ (is_Some (div_assign a value st) ↔ ∀ x, x ∈ va → is_Some (t_div x s))
  ∧ (∀ r st', div_assign a value st = Some (r, st') →
       r = a ∧
       ∀ i x, va !! i = Some x →
              ∃ q, t_div x s = Some q ∧ cell st' a i = Some q)
  ∧ (∀ Γ x, is_Some (compile indeterminate Γ (SDivAssign a x)) →
       ∃ value', x = raw value').
Proof.
  intros Ha Hs Hna.
  pose proof (run_div_assign st a va value s Ha Hs Hna) as Hrun.
  split; [done|]. split; [|split].
  - rewrite Hrun.
    transitivity (is_Some (mapM (λ x, t_div x s) va)).
    { destruct (mapM (λ x, t_div x s) va); simpl; split;
        intros [? ?]; done || eauto. }
    rewrite mapM_is_Some, Forall_forall. done.
  - intros r st' Hst'. rewrite Hrun in Hst'.
    destruct (mapM (λ x, t_div x s) va) as [vals|] eqn:Hvals; [|done].
    simpl in Hst'. injection Hst' as <- <-. split; [done|].
    intros i x Hx. apply mapM_Some in Hvals.
    destruct (Forall2_lookup_l _ _ _ _ _ Hvals Hx) as (q & Hq & Hdiv).
    exists q. split; [done|]. unfold cell. by rewrite lookup_insert_eq.
  - intros Γ [value'|o|b] [y Hy]; [by eexists|done|done].
Qed.

(** C8.  Reading an expression at an index returns the store it was given;
    assigning the expression to a vector that is not one of its operands,
    or constructing a new such vector from it, leaves every operand as it
    was. *)
Theorem evaluation_frame (st : store) (e : operand) (i d c Rows : nat) :
  (∀ x st', index e i st = Some (x, st') → st' = st)
  ∧ (d ∉ vec_refs e → ∀ r st', assign_expr d e st = Some (r, st') →
       ∀ a, a ∈ vec_refs e → st' !! a = st !! a)
  ∧ (c ∉ vec_refs e → ∀ r st',
       construct_expr indeterminate c Rows e st = Some (r, st') →
       ∀ a, a ∈ vec_refs e → st' !! a = st !! a).
Proof.
  split; [|split].
  - intros x st' Hix. destruct (index_pure e i st) as [Hn|[y Hy]]; congruence.
  - intros Hd r st' Hrun a Ha. unfold assign_expr in Hrun.
    rewrite run_bind in Hrun.
    destruct (st !! d) as [vd|] eqn:Hvd.
    + rewrite (run_materialize st d vd) in Hrun by done.
      destruct (eval_all st e (length vd)) as [vals|]; [|done].
      simpl in Hrun. injection Hrun as _ <-.
      apply lookup_insert_ne. intros ->. done.
    + unfold materialize in Hrun. by rewrite for_rows_None in Hrun.
  - intros Hc r st' Hrun a Ha. unfold construct_expr in Hrun.
    rewrite run_bind, run_alloc in Hrun.
    erewrite run_materialize in Hrun by apply lookup_insert_eq.
    destruct (eval_all _ e _) as [vals|]; [|done].
    simpl in Hrun. injection Hrun as _ <-.
    rewrite !lookup_insert_ne; [done|intros ->; done..].
Qed.

(** C9.  [v = value] for a value of the element type is accepted for any
    declared vector, and sets each element of [v] to that value; the
    length stays. *)
Theorem assign_scalar_law (st : store) (a : nat) (va : list T)
    (value : cref) (x : T) (Γ : gmap nat nat) :
  st !! a = Some va →
  referent st value = Some x →
  ∃ va', assign_scalar a value st = Some (tt, <[a := va']> st) ∧
         length va' = length va ∧
         (∀ i, i < length va → va' !! i = Some x) ∧
         (is_Some (Γ !! a) → cref_in_scope Γ value = true →
          compile indeterminate Γ (SAssign a (raw value))
          = Some (Γ, assign_scalar a value)).
Proof.
  intros Ha Hx. exists (replicate (length va) x). repeat split.
  - by apply (run_std_fill st a va).
  - apply length_replicate.
  - intros i Hi. by apply lookup_replicate_2.
  - intros Hdecl Hscope. simpl. unfold member_call, declared.
    by rewrite bool_decide_eq_true_2, Hscope.
Qed.

End laws.

(** ** Division on [int] *)

Section int_division.
Local Open Scope Z_scope.

Lemma int_div_None (l r : Z) :
  int_div l r = None ↔ r = 0 ∨ (l = int_min ∧ r = -1).
Proof. unfold int_div. case_decide; split; intros; done || tauto. Qed.

Lemma int_div_Some (l r q : Z) :
  int_div l r = Some q ↔ r ≠ 0 ∧ ¬ (l = int_min ∧ r = -1) ∧ q = Z.quot l r.
Proof.
  unfold int_div. case_decide as Hdec; split.
  - done.
  - intros (? & ? & ?). tauto.
  - intros [= <-]. tauto.
  - by intros (_ & _ & ->).
Qed.

(** The values every [int] can be divided by: all but 0 and -1. *)
Lemma int_safe_divisor (s : Z) : safe_divisor s ↔ s ≠ 0 ∧ s ≠ -1.
Proof.
  split.
  - intros Hsafe. destruct (Hsafe int_min) as [q Hq].
    apply int_div_Some in Hq as (Hs & Hov & _). split; [done|].
    intros ->. by apply Hov.
  - intros [Hs0 Hs1] x. exists (Z.quot x s). apply int_div_Some.
    split; [done|]. split; [|done]. by intros [_ ?].
Qed.

Lemma eval_int_quotient (st : gmap nat (list Z)) a b va vb i :
  st !! a = Some va → st !! b = Some vb →
  eval st (op_div (vec a) (vec b)) i = x ← va !! i; y ← vb !! i; int_div x y.
Proof.
  intros Ha Hb. unfold op_div. rewrite eval_expr, !eval_vec. unfold cell.
  by rewrite Ha, Hb.
Qed.

(** C7 (as amended).  [div_binary_op::apply] on [int] has no test of its
    own: it has a result exactly when [int] division has one, that is for
    a divisor other than zero and not for [INT_MIN / -1], and the result
    is the truncated quotient.  Through an expression the same holds
    element by element: [d = a / b] has a result exactly when every pair
    of elements can be divided, and then holds the quotients; otherwise
    there is no result, and no error value either. *)
Theorem divide_unchecked (st : gmap nat (list Z)) (a b d : nat)
    (va vb vd : list Z) :
  st !! a = Some va →
  st !! b = Some vb →
  st !! d = Some vd →
  length va = length vd →
  length vb = length vd →
  (∀ l r, binary_op_apply div_binary_op l r = None ↔
          r = 0 ∨ (l = int_min ∧ r = -1))
  ∧ (∀ l r, r ≠ 0 → ¬ (l = int_min ∧ r = -1) →
            binary_op_apply div_binary_op l r = Some (Z.quot l r))
  ∧ (is_Some (assign_expr d (op_div (vec a) (vec b)) st) ↔
     ∀ i x y, va !! i = Some x → vb !! i = Some y →
              y ≠ 0 ∧ ¬ (x = int_min ∧ y = -1))
  ∧ (∀ r st', assign_expr d (op_div (vec a) (vec b)) st = Some (r, st') →
     ∀ i x y, va !! i = Some x → vb !! i = Some y →
              cell st' d i = Some (Z.quot x y)).
Proof.
  intros Ha Hb Hd Hla Hlb.
  assert (assign_expr d (op_div (vec a) (vec b)) st =
            (vals ← eval_all st (op_div (vec a) (vec b)) (length vd);
             Some (d, <[d := vals]> st))) as Hrun.
  { unfold assign_expr. rewrite run_bind, (run_materialize st d vd) by done.
    by destruct (eval_all _ _ _). }
  split; [intros l r; apply int_div_None|]. split.
  { intros l r Hr Hov. by apply int_div_Some. }
  split.
  - rewrite Hrun.
    transitivity (is_Some (eval_all st (op_div (vec a) (vec b)) (length vd))).
    { destruct (eval_all _ _ _); simpl; split; intros [? ?]; done || eauto. }
    unfold eval_all. rewrite mapM_seq_is_Some. split.
    + intros Hall i x y Hx Hy.
      destruct (Hall i) as [q Hq]; [apply lookup_lt_Some in Hx; lia|].
      rewrite (eval_int_quotient st a b va vb), Hx, Hy in Hq by done.
      simpl in Hq. apply int_div_Some in Hq. tauto.
    + intros Hall i Hi.
      destruct (lookup_lt_is_Some_2 va i) as [x Hx]; [lia|].
      destruct (lookup_lt_is_Some_2 vb i) as [y Hy]; [lia|].
      rewrite (eval_int_quotient st a b va vb), Hx, Hy by done. simpl.
      exists (Z.quot x y). apply int_div_Some.
      destruct (Hall i x y Hx Hy). tauto.
  - intros r st' Hst' i x y Hx Hy. rewrite Hrun in Hst'.
    destruct (eval_all st _ (length vd)) as [vals|] eqn:Hvals; [|done].
    simpl in Hst'. injection Hst' as <- <-.
    apply mapM_seq_Some in Hvals as [Hlen Hvals].
    unfold cell. rewrite lookup_insert_eq. simpl.
    rewrite <-Hvals by (apply lookup_lt_Some in Hx; lia).
    rewrite (eval_int_quotient st a b va vb), Hx, Hy by done. simpl.
    apply int_div_Some.
    assert (is_Some (vals !! i)) as [q Hq]
      by (apply lookup_lt_is_Some; apply lookup_lt_Some in Hx; lia).
    rewrite <-Hvals in Hq by (apply lookup_lt_Some in Hx; lia).
    rewrite (eval_int_quotient st a b va vb), Hx, Hy in Hq by done.
    simpl in Hq. apply int_div_Some in Hq. tauto.
Qed.

End int_division.

(** ** Lengths never change *)

Create HintDb shape discriminated.

Section shape_laws.
Context {T : Type} `{!Elem T}.
Context (indeterminate : nat → nat → T).
Local Abbreviation store := (gmap nat (list T)).

Lemma keeps_shape_ret {A} (a : A) : keeps_shape (T:=T) (mret a).
Proof. intros st r st' Hrun. by injection Hrun as _ <-. Qed.

Lemma keeps_shape_fail {A} : keeps_shape (T:=T) (A:=A) fail.
Proof. by intros st r st' Hrun. Qed.

Lemma keeps_shape_bind {A B} (m : M (T:=T) A) (f : A → M B) :
  keeps_shape m → (∀ x, keeps_shape (f x)) → keeps_shape (m ≫= f).
Proof.
  intros Hm Hf st r st' Hrun. rewrite run_bind in Hrun.
  destruct (m st) as [[x st1]|] eqn:Hst1; [|done].
  rewrite (Hf x st1 r st' Hrun). by eapply Hm.
Qed.

Lemma keeps_shape_size a : keeps_shape (T:=T) (size a).
Proof.
  intros st r st' Hrun. rewrite run_size in Hrun.
  destruct (st !! a); [|done]. by injection Hrun as _ <-.
Qed.

Lemma keeps_shape_data_get a i : keeps_shape (T:=T) (data_get a i).
Proof.
  intros st r st' Hrun. rewrite run_data_get in Hrun.
  destruct (st !! a ≫= (.!! i)); [|done]. by injection Hrun as _ <-.
Qed.

Lemma keeps_shape_data_set a i x : keeps_shape (T:=T) (data_set a i x).
Proof.
  intros st r st' Hrun. unfold data_set in Hrun.
  destruct (st !! a) as [v|] eqn:Hv; [simpl in Hrun|done].
  case_decide; [|done]. injection Hrun as _ <-.
  unfold shape. rewrite fmap_insert, length_insert.
  apply insert_id. by rewrite lookup_fmap, Hv.
Qed.

Lemma keeps_shape_dbn_assert c : keeps_shape (T:=T) (dbn_assert c).
Proof. destruct c; [apply keeps_shape_ret | apply keeps_shape_fail]. Qed.

Lemma keeps_shape_compute {A} (r : option A) : keeps_shape (T:=T) (compute r).
Proof. destruct r; [apply keeps_shape_ret | apply keeps_shape_fail]. Qed.

Hint Resolve keeps_shape_ret keeps_shape_fail keeps_shape_bind keeps_shape_size
  keeps_shape_data_get keeps_shape_data_set keeps_shape_dbn_assert
  keeps_shape_compute : shape.

Lemma keeps_shape_vec_at a i : keeps_shape (T:=T) (vec_at a i).
Proof. unfold vec_at. auto 6 with shape. Qed.

Hint Resolve keeps_shape_vec_at : shape.

Lemma keeps_shape_index (o : operand) i : keeps_shape (T:=T) (index o i).
Proof. induction o; simpl; auto 6 with shape. Qed.

Lemma keeps_shape_deref (r : cref) : keeps_shape (T:=T) (deref r).
Proof. destruct r; simpl; auto with shape. Qed.

Lemma keeps_shape_for_loop (body : nat → M (T:=T) unit) k i :
  (∀ j, keeps_shape (body j)) → keeps_shape (for_loop i k body).
Proof. intros Hbody. revert i. induction k; simpl; auto with shape. Qed.

Hint Resolve keeps_shape_index keeps_shape_deref keeps_shape_for_loop : shape.

Lemma keeps_shape_for_rows a (body : nat → M (T:=T) unit) :
  (∀ j, keeps_shape (body j)) → keeps_shape (for_rows a body).
Proof. intros Hbody. unfold for_rows. auto with shape. Qed.

Hint Resolve keeps_shape_for_rows : shape.

Lemma keeps_shape_std_fill a value : keeps_shape (T:=T) (std_fill a value).
Proof. unfold std_fill. auto 6 with shape. Qed.

Lemma keeps_shape_materialize a e : keeps_shape (T:=T) (materialize a e).
Proof. unfold materialize. auto 6 with shape. Qed.

Lemma keeps_shape_move_elements a b : keeps_shape (T:=T) (move_elements a b).
Proof. unfold move_elements. auto 8 with shape. Qed.

Hint Resolve keeps_shape_std_fill keeps_shape_materialize
  keeps_shape_move_elements : shape.

Lemma keeps_shape_assign_expr a e : keeps_shape (T:=T) (assign_expr a e).
Proof. unfold assign_expr. auto with shape. Qed.

Lemma keeps_shape_assign_move a b : keeps_shape (T:=T) (assign_move a b).
Proof. unfold assign_move. auto with shape. Qed.

Lemma keeps_shape_assign_scalar a value : keeps_shape (T:=T) (assign_scalar a value).
Proof. unfold assign_scalar. auto with shape. Qed.

Lemma keeps_shape_div_assign a value : keeps_shape (T:=T) (div_assign a value).
Proof. unfold div_assign. auto 10 with shape. Qed.

Lemma keeps_shape_add_assign a rhs : keeps_shape (T:=T) (add_assign a rhs).
Proof. unfold add_assign. auto 10 with shape. Qed.

Lemma keeps_shape_set_at a i value : keeps_shape (T:=T) (set_at a i value).
Proof. unfold set_at. auto 10 with shape. Qed.

Hint Resolve keeps_shape_assign_expr keeps_shape_assign_move
  keeps_shape_assign_scalar keeps_shape_div_assign keeps_shape_add_assign
  keeps_shape_set_at : shape.

(** *** Accepted statements keep the store well shaped *)

Lemma shape_alloc (st : store) c Rows :
  shape (<[c := indeterminate c <$> seq 0 Rows]> st) = <[c := Rows]> (shape st).
Proof. unfold shape. by rewrite fmap_insert, length_fmap, length_seq. Qed.

Lemma shape_alloc_then (rest : M unit) c Rows (st : store) r st' :
  keeps_shape rest →
  (alloc indeterminate c Rows;; rest) st = Some (r, st') →
  shape st' = <[c := Rows]> (shape st).
Proof.
  intros Hrest Hrun. rewrite run_bind in Hrun.
  rewrite (Hrest _ _ _ Hrun). apply shape_alloc.
Qed.

Lemma new_vector_Some (Γ : gmap nat nat) a Rows ok (ctor : M (T:=T) unit) Γ' m :
  new_vector Γ a Rows ok ctor = Some (Γ', m) →
  Γ !! a = None ∧ 0 < Rows ∧ ok = true ∧ Γ' = <[a := Rows]> Γ ∧ m = ctor.
Proof.
  unfold new_vector. case_bool_decide; [|done]. case_bool_decide; [|done].
  destruct ok; [|done]. simpl. intros [= <- <-]. done.
Qed.

Lemma member_call_Some (Γ : gmap nat nat) a ok (body : M (T:=T) unit) Γ' m :
  member_call Γ a ok body = Some (Γ', m) →
  is_Some (Γ !! a) ∧ ok = true ∧ Γ' = Γ ∧ m = body.
Proof.
  unfold member_call, declared. case_bool_decide; [|done].
  destruct ok; [|done]. simpl. intros [= <- <-]. done.
Qed.

Lemma well_shaped_new (Γ : gmap nat nat) (st st' : store) a Rows :
  well_shaped Γ st → 0 < Rows →
  shape st' = <[a := Rows]> (shape st) →
  well_shaped (<[a := Rows]> Γ) st'.
Proof.
  intros [Hshape Hpos] HRows Hst'. split.
  - by rewrite Hst', Hshape.
  - by apply map_Forall_insert_2.
Qed.

Lemma well_shaped_keep (Γ : gmap nat nat) (m : M unit) (st : store) r st' :
  well_shaped Γ st → keeps_shape m → m st = Some (r, st') →
  well_shaped Γ st'.
Proof.
  intros [Hshape Hpos] Hm Hrun. split; [|done].
  by rewrite (Hm _ _ _ Hrun).
Qed.

Ltac new_vector_case Hc Hrun :=
  apply new_vector_Some in Hc as (_ & ? & _ & -> & ->);
  eapply well_shaped_new; [eassumption | done |];
  first [ injection Hrun as _ <-; apply shape_alloc
        | eapply shape_alloc_then; [|exact Hrun]; auto with shape ].

Ltac member_call_case Hc Hrun :=
  apply member_call_Some in Hc as (_ & _ & -> & ->);
  eapply well_shaped_keep; [eassumption | | exact Hrun]; auto with shape.

Lemma compile_well_shaped (Γ : gmap nat nat) s Γ' m (st : store) r st' :
  compile indeterminate Γ s = Some (Γ', m) →
  well_shaped Γ st → m st = Some (r, st') →
  well_shaped Γ' st'.
Proof.
  intros Hc Hws Hrun.
  destruct s as [a Rows|a Rows [value|[]|b]|a [value|[]|b]
                |a [value|o|b]|a [value|o|b]|a i value];
    simpl in Hc; try discriminate;
    first [ new_vector_case Hc Hrun | member_call_case Hc Hrun ].
Qed.

Lemma compile_prog_well_shaped p (Γ : gmap nat nat) Γ' m (st : store) r st' :
  compile_prog indeterminate Γ p = Some (Γ', m) →
  well_shaped Γ st → m st = Some (r, st') →
  well_shaped Γ' st'.
Proof.
  revert Γ m st r. induction p as [|s p IH]; intros Γ m st r Hc Hws Hrun.
  - simpl in Hc. injection Hc as <- <-. by injection Hrun as _ <-.
  - simpl in Hc.
    destruct (compile indeterminate Γ s) as [[Γ1 m1]|] eqn:Hc1; [simpl in Hc|done].
    destruct (compile_prog indeterminate Γ1 p) as [[Γ2 m2]|] eqn:Hc2; [simpl in Hc|done].
    injection Hc as <- <-. rewrite run_bind in Hrun.
    destruct (m1 st) as [[[] st1]|] eqn:Hst1; [|done].
    eapply IH; [exact Hc2| |exact Hrun].
    eapply compile_well_shaped; eauto.
Qed.

Lemma well_shaped_empty : well_shaped (T:=T) ∅ ∅.
Proof. split; [apply fmap_empty | apply map_Forall_empty]. Qed.

(** C10.  A declaration of a vector of length 0 is rejected, whatever the
    constructor; and after any accepted program, run from the start, each
    vector in the store has the length it was declared with, which is at
    least 1. *)
Theorem vectors_are_nonempty (p : list stmt) (Γ : gmap nat nat)
    (m : M unit) (st : store) :
  compile_prog indeterminate ∅ p = Some (Γ, m) →
  m ∅ = Some (tt, st) →
  (∀ a v, st !! a = Some v → 1 ≤ length v ∧ Γ !! a = Some (length v))
  ∧ (∀ Γ0 a x, compile indeterminate Γ0 (SDecl a 0) = None ∧
               compile indeterminate Γ0 (SInit a 0 x) = None).
Proof.
  intros Hc Hrun. split.
  - destruct (compile_prog_well_shaped p ∅ Γ m ∅ tt st Hc well_shaped_empty Hrun)
      as [Hshape Hpos].
    intros a v Hv.
    assert (Γ !! a = Some (length v)) as Ha.
    { rewrite <-Hshape. unfold shape. by rewrite lookup_fmap, Hv. }
    split; [|done]. apply (Hpos a (length v) Ha).
  - intros Γ0 a x. split.
    + simpl. unfold new_vector. rewrite (bool_decide_eq_false_2 (0 < 0)) by lia.
      by rewrite andb_false_r.
    + assert (∀ ok ctor, new_vector (T:=T) Γ0 a 0 ok ctor = None) as Hnv.
      { intros ok ctor. unfold new_vector.
        rewrite (bool_decide_eq_false_2 (0 < 0)) by lia.
        by rewrite andb_false_r. }
      destruct x as [value|[]|b]; simpl; auto.
Qed.

(** *** What is checked for an expression, and what goes out of bounds *)

Lemma operand_in_scope_true (Γ : gmap nat nat) (o : operand (T:=T)) :
  operand_in_scope Γ o = true ↔ ∀ a, a ∈ vec_refs o → is_Some (Γ !! a).
Proof.
  unfold operand_in_scope, declared. rewrite forallb_forall. split.
  - intros Hall a Ha. apply list_elem_of_In in Ha.
    by apply Hall, bool_decide_eq_true in Ha.
  - intros Hall a Ha. apply bool_decide_eq_true, Hall. by apply list_elem_of_In.
Qed.

Lemma materialize_is_Some (st : store) d vd e :
  st !! d = Some vd → 0 < length vd →
  is_Some (materialize d e st) ↔
  (∀ a, a ∈ vec_refs e → ∃ v, st !! a = Some v ∧ length vd ≤ length v)
  ∧ (∀ i, i < length vd → arith_defined st e i).
Proof.
  intros Hd Hpos. rewrite (run_materialize st d vd) by done.
  transitivity (is_Some (eval_all st e (length vd))).
  { destruct (eval_all st e (length vd)); simpl; split;
      intros [? ?]; done || eauto. }
  unfold eval_all. rewrite mapM_seq_is_Some. split.
  - intros Hall. split.
    + intros a Ha.
      assert (is_Some (eval st e (length vd - 1))) as Hlast by (apply Hall; lia).
      apply eval_cells with (a := a) in Hlast; [|done].
      apply cell_is_Some in Hlast as (v & Hv & Hlt). exists v. split; [done|lia].
    + intros i Hi. by apply eval_is_Some, Hall.
  - intros [Hrefs Harith] i Hi. apply eval_is_Some. split; [|by apply Harith].
    intros a Ha. apply cell_is_Some. destruct (Hrefs a Ha) as (v & Hv & Hle).
    exists v. split; [done|lia].
Qed.

(** C2 (as amended).  Acceptance of [d = e] for an expression [e] looks at
    names only: [d] and the vectors of [e] are declared, their lengths are
    not compared.  At run time the assignment into a vector of length N
    stays inside every operand exactly when each vector of [e] has at
    least N elements; it then has a result unless an operator application
    in [e] has none. *)
Theorem expr_assignment_bounds (st : store) (d : nat) (vd : list T)
    (op : binary_op) (lhs rhs : operand) (Γ : gmap nat nat) :
  st !! d = Some vd →
  0 < length vd →
  (is_Some (compile indeterminate Γ (SAssign d (obj (fast_vector_expr op lhs rhs)))) ↔
     is_Some (Γ !! d) ∧
     ∀ a, a ∈ vec_refs (fast_vector_expr op lhs rhs) → is_Some (Γ !! a))
  ∧ (is_Some (assign_expr d (fast_vector_expr op lhs rhs) st) ↔
     (∀ a, a ∈ vec_refs (fast_vector_expr op lhs rhs) →
           ∃ v, st !! a = Some v ∧ length vd ≤ length v)
     ∧ (∀ i, i < length vd → arith_defined st (fast_vector_expr op lhs rhs) i))
  ∧ ((∀ i, i < length vd → arith_defined st (fast_vector_expr op lhs rhs) i) →
     (is_Some (assign_expr d (fast_vector_expr op lhs rhs) st) ↔
      ∀ a, a ∈ vec_refs (fast_vector_expr op lhs rhs) →
           ∃ v, st !! a = Some v ∧ length vd ≤ length v)).
Proof.
  intros Hd Hpos.
  assert (is_Some (assign_expr d (fast_vector_expr op lhs rhs) st) ↔
          (∀ a, a ∈ vec_refs (fast_vector_expr op lhs rhs) →
                ∃ v, st !! a = Some v ∧ length vd ≤ length v)
          ∧ (∀ i, i < length vd →
                  arith_defined st (fast_vector_expr op lhs rhs) i)) as Hiff.
  { rewrite <-(materialize_is_Some st d vd) by done.
    unfold assign_expr. rewrite run_bind.
    destruct (materialize d _ st) as [[[] st']|]; simpl; split;
      intros [? ?]; done || eauto. }
  split; [|split; [done|]].
  - rewrite <-operand_in_scope_true.
    change (compile indeterminate Γ (SAssign d (obj (fast_vector_expr op lhs rhs))))
      with (member_call Γ d (operand_in_scope Γ (fast_vector_expr op lhs rhs))
              (assign_expr d (fast_vector_expr op lhs rhs);; mret tt)).
    unfold member_call, declared.
    destruct (operand_in_scope Γ (fast_vector_expr op lhs rhs));
      case_bool_decide as Hdecl; simpl; split;
      try (intros [? ?]; done); try (intros [? _]; done); eauto.
  - intros Harith. rewrite Hiff.
    split; [by intros [? _] | by intros ?; split].
Qed.

End shape_laws.

(** ** The scenarios of the specification, run *)

Module ScenarioFacts.
Import Scenario.
Local Open Scope Z_scope.

Example scenario1_sum : result_of prog_scenario1 2 = Some [5; 7; 9].
Proof. vm_compute. reflexivity. Qed.

Example scenario1_difference : result_of prog_scenario1 3 = Some [-3; -3; -3].
Proof. vm_compute. reflexivity. Qed.

Example scenario1_scaled : result_of prog_scenario1 4 = Some [2; 4; 6].
Proof. vm_compute. reflexivity. Qed.

Example scenario2_halved : result_of prog_scenario2 0 = Some [2; 3; 4].
Proof. vm_compute. reflexivity. Qed.

Example scenario3_sum_twice : result_of prog_scenario3 2 = Some [4; 4; 4].
Proof. vm_compute. reflexivity. Qed.

(** [a /= a[0]] on (4,6,8): the divisor is read again at each index, and
    is 1 once index 0 is written. *)
Example div_assign_by_own_element :
  (div_assign 0 (element 0 0) st_468 ≫= λ '(_, st), st !! 0%nat)
  = Some [1; 6; 8].
Proof. vm_compute. reflexivity. Qed.

End ScenarioFacts.

(** ** The laws at the scenarios *)

Import Scenario Scenario2.

(** Scenario 3 through the law of C1: [(a + b) * 2] assigned into the
    destination of [st_111]. *)
Lemma expr_materialization_law_witness :
  ∃ vals, assign_expr 2 sum_twice st_111 = Some (2, <[2 := vals]> st_111) ∧
          length vals = 3 ∧
          ∀ i, i < 3 → vals !! i = eval st_111 sum_twice i.
Proof.
  refine (proj1 (expr_materialization_law junk st_111 2 3 [0; 0; 0]%Z 3 sum_twice
                   eq_refl eq_refl) _).
  intros i Hi. destruct i as [|[|[|i]]]; [by eexists..|simpl in Hi; lia].
Defined.

(** A destination of five elements and an operand of three: accepted, and
    the run stops at index 3 of the operand. *)
Lemma expr_assignment_mismatch_accepted :
  (fst <$> compile_prog junk ∅ prog_mismatch) = Some env_35
  ∧ run junk prog_mismatch = Some None
  ∧ st_mismatch !! 0 = Some [1; 1; 1]%Z
  ∧ eval st_mismatch (op_plus (vec 0) (vec 0)) 3 = None
  ∧ assign_expr 1 (op_plus (vec 0) (vec 0)) st_mismatch = None.
Proof. vm_compute. done. Qed.

Lemma expr_assignment_bounds_witness :
  is_Some (assign_expr 1 (op_plus (vec 0) (vec 0)) st_mismatch) ↔
  ∀ a, a ∈ vec_refs (op_plus (T:=Z) (vec 0) (vec 0)) →
       ∃ v, st_mismatch !! a = Some v ∧ 5 ≤ length v.
Proof.
  refine (proj2 (proj2 (expr_assignment_bounds junk st_mismatch 1
                          [0; 0; 0; 0; 0]%Z plus_binary_op (vec 0) (vec 0)
                          env_35 eq_refl _)) _).
  - simpl. lia.
  - intros i _. simpl. repeat split. intros x y _ _. by eexists.
Defined.

(** [a /= b] and [a /= a + b] for vectors of one length do not compile;
    [a /= 2] does. *)
Lemma div_assign_rejects_vectors :
  compile junk env_33 (SDivAssign 0 (obj (vec 1))) = None
  ∧ compile junk env_33 (SDivAssign 0 (obj (op_plus (vec 0) (vec 1)))) = None
  ∧ compile junk env_33 (SDivAssign 0 (moved 1)) = None
  ∧ is_Some (compile junk env_33 (SDivAssign 0 (raw (by_value 2%Z)))).
Proof. repeat split; try reflexivity. vm_compute. by eexists. Qed.

(** Scenario 2 through the law of C3. *)
Lemma div_assign_scalar_law_witness :
  ∃ st', div_assign 0 (by_value 2%Z) st_468 = Some (0, st') ∧
         st' !! 0 = Some [2; 3; 4]%Z.
Proof.
  assert (¬ aliases (by_value 2%Z) 0) as Hna by (simpl; tauto).
  pose proof (proj1 (div_assign_scalar_law junk st_468 0 [4; 6; 8]%Z
                       (by_value 2%Z) 2%Z eq_refl eq_refl Hna)) as Hrun.
  eexists. split; [rewrite Hrun; reflexivity|].
  vm_compute. reflexivity.
Defined.

Lemma add_assign_vector_law_witness :
  ∃ va', add_assign 0 (vec 1) st_123 = Some (0, <[0 := va']> st_123) ∧
         length va' = 3 ∧
         ∀ i x y, [1; 2; 3]%Z !! i = Some x → [4; 5; 6]%Z !! i = Some y →
                  va' !! i = Some (x + y)%Z.
Proof.
  exact (add_assign_vector_law st_123 0 1 [1; 2; 3]%Z [4; 5; 6]%Z
           eq_refl eq_refl eq_refl).
Defined.

Lemma scalar_broadcast_law_witness :
  assign_expr 2 (op_mul_scalar (vec 0) 2%Z) st_123
  = Some (2, <[2 := (λ x, x * 2)%Z <$> [1; 2; 3]%Z]> st_123).
Proof.
  exact (proj2 (proj2 (scalar_broadcast_law st_123 0 2 [1; 2; 3]%Z [0; 0; 0]%Z 2%Z
                         eq_refl eq_refl eq_refl))).
Defined.

(** [a += a * 2] on (1,2,3). *)
Lemma add_assign_self_reference_witness :
  ∃ st', add_assign 0 (op_mul_scalar (vec 0) 2%Z) st_123 = Some (0, st') ∧
         st' !! 0 = Some [3; 6; 9]%Z.
Proof.
  assert (∀ b, b ∈ vec_refs (op_mul_scalar (T:=Z) (vec 0) 2%Z) → b = 0) as Hrefs.
  { intros b Hb. simpl in Hb. by apply list_elem_of_singleton in Hb. }
  pose proof (proj1 (add_assign_self_reference st_123 0 [1; 2; 3]%Z
                       (op_mul_scalar (vec 0) 2%Z) eq_refl Hrefs)) as Hrun.
  eexists. split; [rewrite Hrun; reflexivity|].
  vm_compute. reflexivity.
Defined.

(** [INT_MIN / -1]: the divisor is not zero and there is no quotient,
    neither for [apply] nor for an expression that reaches this pair. *)
Lemma divide_int_min_by_minus_one :
  (-1 ≠ 0)%Z
  ∧ binary_op_apply div_binary_op int_min (-1)%Z = None
  ∧ eval st_overflow (op_div (vec 0) (vec 1)) 0 = None
  ∧ assign_expr 2 (op_div (vec 0) (vec 1)) st_overflow = None.
Proof. repeat split; [lia|vm_compute; reflexivity..]. Qed.

(** (7,-9,8) / (2,4,-1). *)
Lemma divide_unchecked_witness :
  ∃ r st', assign_expr 2 (op_div (vec 0) (vec 1)) st_div = Some (r, st') ∧
           cell st' 2 0 = Some 3%Z ∧ cell st' 2 1 = Some (-2)%Z ∧
           cell st' 2 2 = Some (-8)%Z.
Proof.
  destruct (divide_unchecked st_div 0 1 2 [7; -9; 8]%Z [2; 4; -1]%Z [0; 0; 0]%Z
              eq_refl eq_refl eq_refl eq_refl eq_refl)
    as (_ & _ & Hsome & Hcells).
  destruct (proj2 Hsome) as [[r st'] Hrun].
  { intros i x y Hx Hy. unfold int_min.
    destruct i as [|[|[|i]]]; simpl in Hx, Hy; [| | |done];
      injection Hx as <-; injection Hy as <-; lia. }
  exists r, st'. split; [exact Hrun|]. split; [|split].
  - exact (Hcells r st' Hrun 0 7%Z 2%Z eq_refl eq_refl).
  - exact (Hcells r st' Hrun 1 (-9)%Z 4%Z eq_refl eq_refl).
  - exact (Hcells r st' Hrun 2 8%Z (-1)%Z eq_refl eq_refl).
Defined.

Lemma evaluation_frame_witness :
  ∃ st', assign_expr 2 (op_plus (vec 0) (vec 1)) st_123 = Some (2, st') ∧
         st' !! 0 = st_123 !! 0 ∧ st' !! 1 = st_123 !! 1.
Proof.
  assert (assign_expr 2 (op_plus (vec 0) (vec 1)) st_123
          = Some (2, <[2 := [5; 7; 9]%Z]> st_123)) as Hrun
    by (vm_compute; reflexivity).
  assert (2 ∉ vec_refs (op_plus (T:=Z) (vec 0) (vec 1))) as Hout.
  { simpl. intros Hin. apply elem_of_cons in Hin as [Hin|Hin]; [lia|].
    apply list_elem_of_singleton in Hin. lia. }
  pose proof (proj1 (proj2 (evaluation_frame junk st_123
                              (op_plus (vec 0) (vec 1)) 0 2 3 3))
                Hout _ _ Hrun) as Hframe.
  eexists. split; [exact Hrun|].
  split; apply Hframe; simpl.
  - apply list_elem_of_here.
  - apply list_elem_of_further, list_elem_of_here.
Defined.

(** [a = a[1]] on (1,2,3): the value is an element of the vector itself. *)
Lemma assign_scalar_law_witness :
  ∃ va', assign_scalar 0 (element 0 1) st_123 = Some (tt, <[0 := va']> st_123) ∧
         length va' = 3 ∧
         (∀ i, i < 3 → va' !! i = Some 2%Z) ∧
         (is_Some (env_33 !! 0) → cref_in_scope env_33 (element (T:=Z) 0 1) = true →
          compile junk env_33 (SAssign 0 (raw (element 0 1)))
          = Some (env_33, assign_scalar 0 (element 0 1))).
Proof.
  exact (assign_scalar_law junk st_123 0 [1; 2; 3]%Z (element 0 1) 2%Z env_33
           eq_refl eq_refl).
Defined.

Lemma vectors_are_nonempty_witness :
  final_scenario1 !! 2 = Some [5; 7; 9]%Z
  ∧ 1 ≤ length [5; 7; 9]%Z
  ∧ env_scenario1 !! 2 = Some (length [5; 7; 9]%Z).
Proof.
  assert (final_scenario1 !! 2 = Some [5; 7; 9]%Z) as Hv by (vm_compute; reflexivity).
  split; [exact Hv|].
  refine (proj1 (vectors_are_nonempty junk prog_scenario1 env_scenario1
                   action_scenario1 final_scenario1 _ _) 2 [5; 7; 9]%Z Hv).
  - reflexivity.
  - vm_compute. reflexivity.
Defined.

(** ** Further laws of the vector *)

Section extra_laws.
Context {T : Type} `{!Elem T}.
Context (indeterminate : nat → nat → T).
Local Abbreviation store := (gmap nat (list T)).

Lemma mapM_pointwise {A B} (f g : A → option B) (l : list A) :
  (∀ x, f x = g x) → mapM f l = mapM g l.
Proof.
  intros Hfg. induction l as [|x l IH]; [done|].
  simpl. by rewrite Hfg, IH.
Qed.

Lemma cell_other (st : store) d v a i :
  a ≠ d → cell (<[d := v]> st) a i = cell st a i.
Proof. intros Hne. unfold cell. by rewrite lookup_insert_ne. Qed.

Lemma eval_other (st : store) d v e i :
  d ∉ vec_refs e → eval (<[d := v]> st) e i = eval st e i.
Proof.
  intros Hd. apply eval_ext. intros a Ha. apply cell_other. by intros ->.
Qed.

Lemma eval_all_other (st : store) d v e n :
  d ∉ vec_refs e → eval_all (<[d := v]> st) e n = eval_all st e n.
Proof. intros Hd. apply mapM_pointwise. intros i. by apply eval_other. Qed.

Lemma run_assign_expr (st : store) d vd e :
  st !! d = Some vd →
  assign_expr d e st = vals ← eval_all st e (length vd); Some (d, <[d := vals]> st).
Proof.
  intros Hd. unfold assign_expr. rewrite run_bind, (run_materialize st d vd) by done.
  by destruct (eval_all st e (length vd)).
Qed.

Lemma run_assign_expr_None (st : store) d e :
  st !! d = None → assign_expr d e st = None.
Proof.
  intros Hd. unfold assign_expr, materialize.
  by rewrite run_bind, for_rows_None.
Qed.

(** X1.  An expression can be read at index [i] exactly when every vector
    in it has more than [i] elements and every operator application in it
    has a result there.  Its usable length is the least of the lengths of
    its vectors; scalars put no bound on it; with safe scalar divisors
    only, the lengths alone decide. *)
Theorem expr_index_bounds (st : store) (e : operand) (i : nat) :
  (is_Some (eval st e i) ↔
   (∀ a, a ∈ vec_refs e → ∃ v, st !! a = Some v ∧ i < length v)
   ∧ arith_defined st e i)
  ∧ (total_arith e →
     (is_Some (eval st e i) ↔
      ∀ a, a ∈ vec_refs e → ∃ v, st !! a = Some v ∧ i < length v)).
Proof.
  assert (is_Some (eval st e i) ↔
          (∀ a, a ∈ vec_refs e → ∃ v, st !! a = Some v ∧ i < length v)
          ∧ arith_defined st e i) as Hiff.
  { rewrite eval_is_Some. split; intros [Hall Harith]; (split; [|done]);
      intros a Ha; apply cell_is_Some; auto. }
  split; [done|]. intros Htotal. rewrite Hiff.
  pose proof (total_arith_defined st e i Htotal) as Harith.
  split; [by intros [? _] | by intros ?; split].
Qed.

(** X2.  The checked accessors of a vector of length N: inside the bounds
    the read returns the element and leaves the store alone; at N and
    beyond, reading and writing both stop at the assertion. *)
Theorem accessor_bounds (st : store) (a : nat) (va : list T) (i : nat)
    (value : cref) :
  st !! a = Some va →
  (i < length va → ∃ x, va !! i = Some x ∧ vec_at a i st = Some (x, st))
  ∧ (length va ≤ i → vec_at a i st = None ∧ set_at a i value st = None).
Proof.
  intros Ha. split.
  - intros Hi. destruct (lookup_lt_is_Some_2 va i Hi) as [x Hx].
    exists x. split; [done|].
    by rewrite run_vec_at, run_data_get, Ha; simpl; rewrite Hx.
  - intros Hi. split.
    + rewrite run_vec_at, run_data_get, Ha. simpl.
      by rewrite lookup_ge_None_2.
    + unfold set_at. rewrite run_bind, run_deref.
      destruct (referent st value) as [x|]; [simpl|done].
      rewrite run_bind, (run_size_Some _ _ _ Ha), run_bind.
      by rewrite bool_decide_eq_false_2 by lia.
Qed.

(** X3.  Writing one element and reading it back: [a[i] = x] inside the
    bounds changes element [i] of [a] to [x] and nothing else, and the next
    read of [a[i]] gives [x]. *)
Theorem element_write_read (st : store) (a : nat) (va : list T) (i : nat)
    (value : cref) (x : T) :
  st !! a = Some va →
  i < length va →
  referent st value = Some x →
  let st' := <[a := <[i := x]> va]> st in
  set_at a i value st = Some (tt, st')
  ∧ vec_at a i st' = Some (x, st')
  ∧ (∀ j, j ≠ i → cell st' a j = cell st a j)
  ∧ (∀ c, c ≠ a → st' !! c = st !! c).
Proof.
  intros Ha Hi Hx. simpl. repeat split.
  - unfold set_at. rewrite run_bind, run_deref, Hx. simpl.
    rewrite run_bind, (run_size_Some _ _ _ Ha), run_bind.
    rewrite bool_decide_eq_true_2 by done. simpl.
    by apply run_data_set.
  - rewrite run_vec_at, run_data_get, lookup_insert_eq. simpl.
    by rewrite list_lookup_insert_eq.
  - intros j Hj. unfold cell. rewrite lookup_insert_eq, Ha. simpl.
    by rewrite list_lookup_insert_ne.
  - intros c Hc. by rewrite lookup_insert_ne.
Qed.

(** X4.  [fast_vector<T, Rows> c(value)] gives a vector of [Rows] elements,
    each the value, whatever the storage held before. *)
Theorem construct_fill_law (st : store) (c Rows : nat) (value : cref) (x : T) :
  st !! c = None →
  referent st value = Some x →
  construct_fill indeterminate c Rows value st
  = Some (tt, <[c := replicate Rows x]> st).
Proof.
  intros Hc Hx. unfold construct_fill. rewrite run_bind, run_alloc.
  erewrite run_std_fill; [|apply lookup_insert_eq|].
  - by rewrite insert_insert_eq, length_fmap, length_seq.
  - rewrite referent_other; [done|].
    destruct value as [v|b j]; simpl; [tauto|]. intros ->.
    simpl in Hx. unfold cell in Hx. by rewrite Hc in Hx.
Qed.

(** X5.  [a += e] is [a = a + e]: the two give the same result from every
    store, failure included. *)
Theorem add_assign_is_assign_sum (st : store) (a : nat) (e : operand) :
  add_assign a e st = assign_expr a (op_plus (vec a) e) st.
Proof.
  destruct (st !! a) as [va|] eqn:Ha.
  - rewrite (run_add_assign st a va), (run_assign_expr st a va) by done.
    unfold eval_all.
    rewrite (mapM_pointwise _ (eval st (op_plus (vec a) e))); [done|].
    intros i. unfold op_plus. rewrite eval_expr, eval_vec. unfold cell.
    rewrite Ha. simpl. by destruct (eval st e i), (va !! i).
  - rewrite run_assign_expr_None by done.
    unfold add_assign. by rewrite run_bind, for_rows_None.
Qed.

(** X6.  [a /= s] for a plain value [s] is [a = a / s]: the same result
    from every store, also when a division has none. *)
Theorem div_assign_is_assign_quotient (st : store) (a : nat) (s : T) :
  div_assign a (by_value s) st = assign_expr a (op_div_scalar (vec a) s) st.
Proof.
  destruct (st !! a) as [va|] eqn:Ha.
  - rewrite (run_div_assign st a va (by_value s) s) by (done || simpl; tauto).
    rewrite (run_assign_expr st a va) by done.
    unfold eval_all.
    rewrite <-(mapM_lookup_seq (λ x, t_div x s) (λ i, va !! i) va 0) by done.
    rewrite (mapM_pointwise (eval st (op_div_scalar (vec a) s))
               (λ i, va !! i ≫= λ x, t_div x s)); [done|].
    intros i. unfold op_div_scalar.
    rewrite eval_expr, eval_vec, eval_scalar. unfold cell.
    rewrite Ha. simpl. by destruct (va !! i).
  - rewrite run_assign_expr_None by done.
    unfold div_assign. by rewrite run_bind, for_rows_None.
Qed.

Lemma mapM_pointwise_in {A B} (f g : A → option B) (l : list A) :
  (∀ x, x ∈ l → f x = g x) → mapM f l = mapM g l.
Proof.
  induction l as [|x l IH]; intros Hfg; [done|].
  simpl. rewrite Hfg, IH; [done| |]; intros; [apply Hfg|]; constructor; done.
Qed.

Lemma eval_all_pointwise (st1 st2 : store) e1 e2 n :
  (∀ i, i < n → eval st1 e1 i = eval st2 e2 i) →
  eval_all st1 e1 n = eval_all st2 e2 n.
Proof.
  intros Heq. apply mapM_pointwise_in. intros i Hi. apply Heq.
  apply list_elem_of_lookup in Hi as [j Hj].
  apply lookup_seq in Hj. lia.
Qed.

(** X7.  [a += e] on a vector of length N >= 1 has a result exactly when
    each vector of [e] has at least N elements and every operator
    application in [e] has a result at each index below N.  A shorter
    vector stops the update at the assertion; with safe scalar divisors
    only, the lengths alone decide. *)
Theorem add_assign_bounds (st : store) (a : nat) (va : list T) (e : operand) :
  st !! a = Some va →
  0 < length va →
  (is_Some (add_assign a e st) ↔
   (∀ b, b ∈ vec_refs e → ∃ v, st !! b = Some v ∧ length va ≤ length v)
   ∧ (∀ i, i < length va → arith_defined st e i))
  ∧ (total_arith e →
     (is_Some (add_assign a e st) ↔
      ∀ b, b ∈ vec_refs e → ∃ v, st !! b = Some v ∧ length va ≤ length v)).
Proof.
  intros Ha Hpos.
  assert (is_Some (add_assign a e st) ↔
          (∀ b, b ∈ vec_refs e → ∃ v, st !! b = Some v ∧ length va ≤ length v)
          ∧ (∀ i, i < length va → arith_defined st e i)) as Hiff.
  { rewrite (run_add_assign st a va) by done.
    set (g := λ i, r ← eval st e i; x ← va !! i; Some (t_add x r)).
    transitivity (is_Some (mapM g (seq 0 (length va)))).
    { destruct (mapM g (seq 0 (length va))); simpl; split;
        intros [? ?]; done || eauto. }
    rewrite mapM_seq_is_Some.
    assert (∀ i, is_Some (g i) → is_Some (eval st e i)) as Hg.
    { intros i [y Hy]. unfold g in Hy.
      destruct (eval st e i) as [r|]; [eauto|done]. }
    split.
    - intros Hall. split.
      + intros b Hb.
        assert (is_Some (eval st e (length va - 1))) as Hsome
          by (apply Hg, Hall; lia).
        apply eval_cells with (a := b) in Hsome; [|done].
        apply cell_is_Some in Hsome as (v & Hv & Hlt). exists v. split; [done|lia].
      + intros i Hi. by apply eval_is_Some, Hg, Hall.
    - intros [Hrefs Harith] i Hi. unfold g.
      destruct (proj2 (eval_is_Some st e i)) as [r ->].
      { split; [|by apply Harith]. intros b Hb. apply cell_is_Some.
        destruct (Hrefs b Hb) as (v & Hv & Hle). exists v. split; [done|lia]. }
      destruct (lookup_lt_is_Some_2 va i Hi) as [x ->]. simpl. eauto. }
  split; [done|]. intros Htotal. rewrite Hiff.
  assert (∀ i, i < length va → arith_defined st e i) as Harith
    by (intros; by apply total_arith_defined).
  split; [by intros [? _] | by intros ?; split].
Qed.

(** X8.  For an operator that is commutative on [T], swapping the two
    operands of a node changes neither the value read at any index nor the
    result of assigning the node to a vector. *)
Theorem node_commutative (st : store) (d : nat) (op : binary_op) (l r : operand) :
  (∀ x y, binary_op_apply op x y = binary_op_apply op y x) →
  (∀ i, eval st (fast_vector_expr op l r) i = eval st (fast_vector_expr op r l) i)
  ∧ assign_expr d (fast_vector_expr op l r) st
    = assign_expr d (fast_vector_expr op r l) st.
Proof.
  intros Hcomm.
  assert (∀ i, eval st (fast_vector_expr op l r) i
               = eval st (fast_vector_expr op r l) i) as Hev.
  { intros i. rewrite !eval_expr.
    destruct (eval st l i) as [x|], (eval st r i) as [y|]; simpl; done. }
  split; [done|].
  destruct (st !! d) as [vd|] eqn:Hd.
  - rewrite !(run_assign_expr st d vd) by done.
    by rewrite (eval_all_pointwise st st _ (fast_vector_expr op r l)).
  - by rewrite !run_assign_expr_None.
Qed.

(** X9.  For an operator that is associative on [T], [(a op b) op c] and
    [a op (b op c)] have the same value at every index and give the same
    result when assigned to a vector. *)
Theorem node_associative (st : store) (d : nat) (op : binary_op)
    (a b c : operand) :
  (∀ x y z, binary_op_apply op x y ≫= (λ u, binary_op_apply op u z)
            = binary_op_apply op y z ≫= (λ v, binary_op_apply op x v)) →
  (∀ i, eval st (fast_vector_expr op (fast_vector_expr op a b) c) i
        = eval st (fast_vector_expr op a (fast_vector_expr op b c)) i)
  ∧ assign_expr d (fast_vector_expr op (fast_vector_expr op a b) c) st
    = assign_expr d (fast_vector_expr op a (fast_vector_expr op b c)) st.
Proof.
  intros Hassoc.
  assert (∀ i, eval st (fast_vector_expr op (fast_vector_expr op a b) c) i
               = eval st (fast_vector_expr op a (fast_vector_expr op b c)) i) as Hev.
  { intros i. rewrite !eval_expr.
    destruct (eval st a i) as [x|], (eval st b i) as [y|],
      (eval st c i) as [z|]; simpl;
      first [ apply Hassoc | by destruct (binary_op_apply op x y) | done ]. }
  split; [done|].
  destruct (st !! d) as [vd|] eqn:Hd.
  - rewrite !(run_assign_expr st d vd) by done.
    by rewrite (eval_all_pointwise st st _
                  (fast_vector_expr op a (fast_vector_expr op b c))).
  - by rewrite !run_assign_expr_None.
Qed.

(** X10.  A scalar operand behaves as a vector filled with its value: if
    [b] holds [n] copies of [s], then [l op s] and [l op b] assigned to a
    vector of at most [n] elements give the same result. *)
Theorem scalar_is_filled_vector (st : store) (d b n : nat) (vd : list T)
    (s : T) (op : binary_op) (l : operand) :
  st !! b = Some (replicate n s) →
  st !! d = Some vd →
  length vd ≤ n →
  assign_expr d (fast_vector_expr op l (scalar s)) st
  = assign_expr d (fast_vector_expr op l (vec b)) st.
Proof.
  intros Hb Hd Hn. rewrite !(run_assign_expr st d vd) by done.
  rewrite (eval_all_pointwise st st _ (fast_vector_expr op l (vec b))); [done|].
  intros i Hi. rewrite !eval_expr, eval_scalar, eval_vec. unfold cell.
  rewrite Hb. simpl. by rewrite lookup_replicate_2 by lia.
Qed.

(** X11.  An expression keeps nothing between reads: assigning it again to
    the same vector, which is not one of its operands, computes the same
    values and leaves the store as the first assignment left it. *)
Theorem assign_expr_twice (st st' : store) (d r : nat) (e : operand) :
  d ∉ vec_refs e →
  assign_expr d e st = Some (r, st') →
  assign_expr d e st' = Some (r, st').
Proof.
  intros Hd Hrun. destruct (st !! d) as [vd|] eqn:Hvd.
  - rewrite (run_assign_expr st d vd) in Hrun by done.
    destruct (eval_all st e (length vd)) as [vals|] eqn:Hvals; [|done].
    simpl in Hrun. injection Hrun as <- <-.
    rewrite (run_assign_expr _ d vals) by apply lookup_insert_eq.
    rewrite eval_all_other by done.
    apply eval_all_Some in Hvals as Hlen. destruct Hlen as [-> _].
    rewrite Hvals. simpl. by rewrite insert_insert_eq.
  - by rewrite run_assign_expr_None in Hrun.
Qed.

(** X12.  Cutting an expression at a named temporary gives the same
    destination: [t = e1; d = t op e2] leaves in [d] what [d = e1 op e2]
    does, and in [t] the values of [e1], provided [e2] does not read [t]
    and [t] is as long as [d]. *)
Theorem temporary_is_transparent (st : store) (t d : nat) (vt vd : list T)
    (op : binary_op) (e1 e2 : operand) :
  st !! t = Some vt →
  st !! d = Some vd →
  length vt = length vd →
  t ≠ d →
  t ∉ vec_refs e2 →
  (∀ i, i < length vd → is_Some (eval st (fast_vector_expr op e1 e2) i)) →
  ∃ vals v1,
    assign_expr d (fast_vector_expr op e1 e2) st = Some (d, <[d := vals]> st)
    ∧ eval_all st e1 (length vd) = Some v1
    ∧ via_temporary t d op e1 e2 st = Some (d, <[d := vals]> (<[t := v1]> st)).
Proof.
  intros Ht Hd Hlen Hne He2 Hall.
  destruct (eval_all_total st _ _ Hall) as (vals & Hvals & Hlv & Hiv).
  assert (∀ i, i < length vd → is_Some (eval st e1 i)) as Hall1.
  { intros i Hi. destruct (Hall i Hi) as [z Hz]. rewrite eval_expr in Hz.
    destruct (eval st e1 i); [eauto|done]. }
  destruct (eval_all_total st _ _ Hall1) as (v1 & Hv1 & Hl1 & Hi1).
  exists vals, v1. split; [|split; [done|]].
  - by rewrite (run_assign_expr st d vd), Hvals.
  - unfold via_temporary. rewrite run_bind.
    rewrite (run_assign_expr st t vt), Hlen, Hv1 by done. simpl.
    rewrite (run_assign_expr _ d vd) by (by rewrite lookup_insert_ne).
    assert (eval_all (<[t := v1]> st) (fast_vector_expr op (vec t) e2) (length vd)
            = Some vals) as ->; [|done].
    rewrite <-Hvals. apply eval_all_pointwise. intros i Hi.
    rewrite !eval_expr, eval_vec, eval_other by done.
    unfold cell. rewrite lookup_insert_eq. simpl. by rewrite Hi1.
Qed.

(** *** What a modifier leaves alone *)

Lemma only_writes_ret {A} a (x : A) : only_writes (T:=T) a (mret x).
Proof. intros st r st' Hrun c _. by injection Hrun as _ <-. Qed.

Lemma only_writes_fail {A} a : only_writes (T:=T) (A:=A) a fail.
Proof. by intros st r st' Hrun. Qed.

Lemma only_writes_bind {A B} a (m : M (T:=T) A) (f : A → M B) :
  only_writes a m → (∀ x, only_writes a (f x)) → only_writes a (m ≫= f).
Proof.
  intros Hm Hf st r st' Hrun c Hc. rewrite run_bind in Hrun.
  destruct (m st) as [[x st1]|] eqn:Hst1; [|done].
  rewrite (Hf x st1 r st' Hrun c Hc). by eapply Hm.
Qed.

Lemma only_writes_size a b : only_writes (T:=T) a (size b).
Proof.
  intros st r st' Hrun c _. rewrite run_size in Hrun.
  destruct (st !! b); [|done]. by injection Hrun as _ <-.
Qed.

Lemma only_writes_data_get a b i : only_writes (T:=T) a (data_get b i).
Proof.
  intros st r st' Hrun c _. rewrite run_data_get in Hrun.
  destruct (st !! b ≫= (.!! i)); [|done]. by injection Hrun as _ <-.
Qed.

Lemma only_writes_data_set a i x : only_writes (T:=T) a (data_set a i x).
Proof.
  intros st r st' Hrun c Hc. unfold data_set in Hrun.
  destruct (st !! a) as [v|]; [simpl in Hrun|done].
  case_decide; [|done]. injection Hrun as _ <-.
  by rewrite lookup_insert_ne.
Qed.

Lemma only_writes_dbn_assert a c : only_writes (T:=T) a (dbn_assert c).
Proof. destruct c; [apply only_writes_ret | apply only_writes_fail]. Qed.

Lemma only_writes_compute {A} a (r : option A) : only_writes (T:=T) a (compute r).
Proof. destruct r; [apply only_writes_ret | apply only_writes_fail]. Qed.

Create HintDb frame discriminated.

Hint Resolve only_writes_ret only_writes_fail only_writes_bind only_writes_size
  only_writes_data_get only_writes_data_set only_writes_dbn_assert
  only_writes_compute : frame.

Lemma only_writes_vec_at a b i : only_writes (T:=T) a (vec_at b i).
Proof. unfold vec_at. auto 6 with frame. Qed.

Hint Resolve only_writes_vec_at : frame.

Lemma only_writes_index a (o : operand) i : only_writes (T:=T) a (index o i).
Proof. induction o; simpl; auto 6 with frame. Qed.

Lemma only_writes_deref a (r : cref) : only_writes (T:=T) a (deref r).
Proof. destruct r; simpl; auto with frame. Qed.

Lemma only_writes_for_loop a (body : nat → M (T:=T) unit) k i :
  (∀ j, only_writes a (body j)) → only_writes a (for_loop i k body).
Proof. intros Hbody. revert i. induction k; simpl; auto with frame. Qed.

Hint Resolve only_writes_index only_writes_deref only_writes_for_loop : frame.

Lemma only_writes_for_rows a b (body : nat → M (T:=T) unit) :
  (∀ j, only_writes a (body j)) → only_writes a (for_rows b body).
Proof. intros Hbody. unfold for_rows. auto with frame. Qed.

Hint Resolve only_writes_for_rows : frame.

(** X13.  Each modifier of a vector [a] changes no other vector: whatever
    [a += e], [a /= value], [a = value], [a = e] and [a[i] = value] do,
    every vector with another name is afterwards what it was. *)
Theorem modifiers_write_target_only (a i : nat) (e : operand) (value : cref) :
  only_writes a (add_assign a e)
  ∧ only_writes a (div_assign a value)
  ∧ only_writes a (assign_scalar a value)
  ∧ only_writes a (assign_expr a e)
  ∧ only_writes a (set_at a i value).
Proof.
  repeat split.
  - unfold add_assign. auto 10 with frame.
  - unfold div_assign. auto 10 with frame.
  - unfold assign_scalar, std_fill. auto 10 with frame.
  - unfold assign_expr, materialize. auto 10 with frame.
  - unfold set_at. auto 10 with frame.
Qed.

(** *** Moves *)

Lemma move_loop (st : store) a b va vb :
  a ≠ b → length va ≤ length vb →
  ∀ k i da db, i + k = length va → length da = i → length db = i →
    for_loop i k
      (λ i, x ← data_get b i; data_set b i (moved_from x);; data_set a i x)
      (<[a := da ++ drop i va]> (<[b := db ++ drop i vb]> st))
    = Some (tt, <[a := (da ++ take k (drop i vb)) ++ drop (i + k) va]>
                  (<[b := (db ++ (moved_from <$> take k (drop i vb)))
                          ++ drop (i + k) vb]> st)).
Proof.
  intros Hne Hle. induction k as [|k IH]; intros i da db Hik Hda Hdb.
  - simpl. by rewrite !app_nil_r, Nat.add_0_r.
  - destruct (lookup_lt_is_Some_2 vb i) as [x Hx]; [lia|].
    rewrite for_loop_S, run_bind, run_data_get.
    rewrite lookup_insert_ne, lookup_insert_eq by done. simpl.
    rewrite lookup_app_r, lookup_drop by lia.
    replace (i + (i - length db)) with i by lia. rewrite Hx. simpl.
    rewrite run_bind, (insert_insert_ne _ a b) by done.
    rewrite (data_set_partial _ b vb db i) by (done || lia).
    rewrite (insert_insert_ne _ b a) by done.
    rewrite (data_set_partial _ a va da i) by (done || lia).
    rewrite IH by (rewrite ?length_app; simpl; lia).
    rewrite (drop_S vb x i Hx). simpl.
    rewrite <-!(assoc_L (++)). simpl.
    by replace (S (i + k)) with (i + S k) by lia.
Qed.

Lemma run_move_elements (st : store) a b va vb :
  a ≠ b → st !! a = Some va → st !! b = Some vb → length va = length vb →
  move_elements a b st
  = Some (tt, <[a := vb]> (<[b := moved_from <$> vb]> st)).
Proof.
  intros Hne Ha Hb Hlen. unfold move_elements, for_rows.
  rewrite run_bind, (run_size_Some _ _ _ Ha).
  pose proof (move_loop st a b va vb Hne (Nat.eq_le_incl _ _ Hlen)
                (length va) 0 [] [] eq_refl eq_refl eq_refl) as Hloop.
  simpl in Hloop.
  rewrite (insert_id st b vb Hb), (insert_id st a va Ha) in Hloop.
  rewrite Hloop. rewrite drop_all, Hlen, drop_all. change (drop 0 vb) with vb.
  rewrite (take_ge vb (length vb)) by done.
  by rewrite !app_nil_r.
Qed.

(** X14.  A move between two distinct vectors of one length: afterwards
    the target holds the elements the source had, and the source holds
    what moving leaves in each element.  The same for a vector constructed
    by move. *)
Theorem move_transfer_law (st : store) (a b c Rows : nat) (va vb : list T) :
  st !! b = Some vb →
  (a ≠ b → st !! a = Some va → length va = length vb →
     assign_move a b st
     = Some (a, <[a := vb]> (<[b := moved_from <$> vb]> st)))
  ∧ (st !! c = None → length vb = Rows →
     construct_move indeterminate c Rows b st
     = Some (tt, <[c := vb]> (<[b := moved_from <$> vb]> st))).
Proof.
  intros Hb. split.
  - intros Hne Ha Hlen. unfold assign_move.
    by rewrite run_bind, (run_move_elements st a b va vb).
  - intros Hc HRows. assert (c ≠ b) as Hne by (intros ->; congruence).
    unfold construct_move. rewrite run_bind, run_alloc.
    erewrite run_move_elements;
      [|done|apply lookup_insert_eq|by rewrite lookup_insert_ne
       |by rewrite length_fmap, length_seq].
    by rewrite (insert_insert_ne _ b c), insert_insert_eq by done.
Qed.

(** *** Statements that cannot leave the bounds *)

Lemma shape_lookup_Some (st : store) a n :
  shape st !! a = Some n → ∃ v, st !! a = Some v ∧ length v = n.
Proof.
  unfold shape. rewrite lookup_fmap.
  destruct (st !! a) as [v|]; simpl; [|done]. intros [= <-]. eauto.
Qed.

Lemma for_loop_runs (P : store → Prop) (body : nat → M unit) n :
  (∀ i st1, i < n → P st1 → ∃ st2, body i st1 = Some (tt, st2) ∧ P st2) →
  ∀ k i st1, i + k ≤ n → P st1 →
    ∃ st2, for_loop i k body st1 = Some (tt, st2) ∧ P st2.
Proof.
  intros Hbody. induction k as [|k IH]; intros i st1 Hik HP.
  - exists st1. by split.
  - destruct (Hbody i st1) as (st2 & Hst2 & HP2); [lia|done|].
    rewrite for_loop_S, Hst2. apply IH; [lia|done].
Qed.

Lemma for_rows_runs (Γ : gmap nat nat) a n (body : nat → M unit) (st : store) :
  shape st = Γ → Γ !! a = Some n →
  (∀ i st1, i < n → shape st1 = Γ →
     ∃ st2, body i st1 = Some (tt, st2) ∧ shape st2 = Γ) →
  ∃ st', for_rows a body st = Some (tt, st') ∧ shape st' = Γ.
Proof.
  intros Hshape Ha Hbody. rewrite <-Hshape in Ha.
  destruct (shape_lookup_Some st a n Ha) as (v & Hv & <-).
  unfold for_rows. rewrite run_bind, (run_size_Some _ _ _ Hv).
  apply (for_loop_runs (λ st1, shape st1 = Γ) body (length v)); [done|lia|done].
Qed.

Lemma data_get_runs (Γ : gmap nat nat) b n i (st : store) :
  shape st = Γ → Γ !! b = Some n → i < n →
  ∃ x, data_get b i st = Some (x, st).
Proof.
  intros Hshape Hb Hi. rewrite <-Hshape in Hb.
  destruct (shape_lookup_Some st b n Hb) as (v & Hv & <-).
  destruct (lookup_lt_is_Some_2 v i Hi) as [x Hx]. exists x.
  by rewrite run_data_get, Hv; simpl; rewrite Hx.
Qed.

Lemma data_set_runs (Γ : gmap nat nat) a n i x (st : store) :
  shape st = Γ → Γ !! a = Some n → i < n →
  ∃ st', data_set a i x st = Some (tt, st') ∧ shape st' = Γ.
Proof.
  intros Hshape Ha Hi. rewrite <-Hshape in Ha.
  destruct (shape_lookup_Some st a n Ha) as (v & Hv & <-).
  eexists. split; [by apply run_data_set|].
  rewrite <-Hshape. eapply keeps_shape_data_set. by apply run_data_set.
Qed.

Lemma std_fill_runs (Γ : gmap nat nat) a n v (st : store) :
  shape st = Γ → Γ !! a = Some n →
  ∃ st', std_fill a (by_value v) st = Some (tt, st') ∧ shape st' = Γ.
Proof.
  intros Hshape Ha. unfold std_fill.
  apply (for_rows_runs Γ a n); [done..|]. intros i st1 Hi Hst1.
  rewrite run_bind, run_deref_by_value. by apply (data_set_runs Γ a n).
Qed.

Lemma move_elements_runs (Γ : gmap nat nat) a b n (st : store) :
  shape st = Γ → Γ !! a = Some n → Γ !! b = Some n →
  ∃ st', move_elements a b st = Some (tt, st') ∧ shape st' = Γ.
Proof.
  intros Hshape Ha Hb. unfold move_elements.
  apply (for_rows_runs Γ a n); [done..|]. intros i st1 Hi Hst1.
  rewrite run_bind.
  destruct (data_get_runs Γ b n i st1) as [x ->]; [done..|].
  rewrite run_bind.
  destruct (data_set_runs Γ b n i (moved_from x) st1) as (st2 & -> & Hst2);
    [done..|].
  by apply (data_set_runs Γ a n).
Qed.

(** X15.  A statement in which every length is fixed by a type and that
    does no arithmetic (a declaration, a move, a fill by constructor or by
    [a = value] with a plain value), once accepted, runs to its end in
    every store that has the declared lengths, and leaves a store that has
    them too. *)
Theorem size_checked_runs (Γ Γ' : gmap nat nat) (s : stmt) (m : M unit)
    (st : store) :
  shape st = Γ →
  size_checked s = true →
  compile indeterminate Γ s = Some (Γ', m) →
  ∃ st', m st = Some (tt, st') ∧ shape st' = Γ'.
Proof.
  intros Hshape Hsc Hc.
  destruct s as [a Rows|a Rows [[v|]| |b]|a [[v|]| |b]| | |];
    try discriminate Hsc; simpl in Hc.
  - apply new_vector_Some in Hc as (_ & _ & _ & -> & ->).
    eexists. split; [apply run_alloc|]. by rewrite shape_alloc, Hshape.
  - apply new_vector_Some in Hc as (_ & _ & _ & -> & ->).
    unfold construct_fill. rewrite run_bind, run_alloc.
    apply (std_fill_runs _ a Rows).
    + by rewrite shape_alloc, Hshape.
    + apply lookup_insert_eq.
  - apply new_vector_Some in Hc as (Hfresh & _ & Hb & -> & ->).
    apply bool_decide_eq_true in Hb.
    unfold construct_move. rewrite run_bind, run_alloc.
    apply (move_elements_runs _ a b Rows).
    + by rewrite shape_alloc, Hshape.
    + apply lookup_insert_eq.
    + rewrite lookup_insert_ne; [done|]. intros ->. congruence.
  - apply member_call_Some in Hc as ([n Ha] & _ & -> & ->).
    by apply (std_fill_runs _ a n).
  - apply member_call_Some in Hc as ([n Ha] & Hb & -> & ->).
    apply bool_decide_eq_true in Hb as [_ Hb]. rewrite Ha in Hb.
    unfold assign_move. rewrite !run_bind.
    destruct (move_elements_runs Γ a b n st) as (st' & -> & Hst'); [done..|].
    by exists st'.
Qed.

End extra_laws.

(** ** The sizes of the recurrent layer *)

Module LayerFacts.
Import Layer.
Local Open Scope Z_scope.

Lemma wrap_small x : 0 ≤ x < size_t_modulus → wrap x = x.
Proof. intros Hx. unfold wrap. by apply Z.mod_small. Qed.

Lemma wrap_add_wrap x y : wrap (wrap x + wrap y) = wrap (x + y).
Proof.
  unfold wrap. rewrite <-Z.add_mod; [done|]. unfold size_t_modulus. lia.
Qed.

(** X16.  [parameters()] is [hidden_units * (hidden_units +
    sequence_length)] reduced modulo 2^64; [input_size()], [output_size()]
    and [parameters()] are the exact products whenever those fit in a
    [size_t]; and [bptt_steps] is a [size_t] that is zero only when both
    [time_steps] and [Truncate] are. *)
Theorem layer_sizes (d : desc) :
  desc_ok d →
  parameters d = wrap (hidden_units d * (hidden_units d + sequence_length d))
  ∧ (hidden_units d * (hidden_units d + sequence_length d) < size_t_modulus →
     parameters d
     = hidden_units d * hidden_units d + hidden_units d * sequence_length d)
  ∧ (time_steps d * sequence_length d < size_t_modulus →
     input_size d = time_steps d * sequence_length d)
  ∧ (time_steps d * hidden_units d < size_t_modulus →
     output_size d = time_steps d * hidden_units d)
  ∧ (bptt_steps d = 0 ↔ time_steps d = 0 ∧ Truncate d = 0)
  ∧ is_size_t (bptt_steps d).
Proof.
  intros ([Ht0 Ht] & [Hs0 Hs] & [Hh0 Hh] & [Hc0 Hc]).
  assert (parameters d
          = wrap (hidden_units d * (hidden_units d + sequence_length d))) as Hp.
  { unfold parameters. rewrite wrap_add_wrap. f_equal. ring. }
  split; [done|]. split; [|split; [|split; [|split]]].
  - intros Hfit. rewrite Hp, wrap_small; [ring|]. split; [nia|done].
  - intros Hfit. unfold input_size. apply wrap_small. split; [nia|done].
  - intros Hfit. unfold output_size. apply wrap_small. split; [nia|done].
  - unfold bptt_steps. destruct (Z.eqb_spec (Truncate d) 0); lia.
  - unfold bptt_steps, is_size_t. destruct (Truncate d =? 0); lia.
Qed.

End LayerFacts.

(** ** The further laws at concrete vectors *)

Import Scenario2.

Lemma accessor_bounds_witness :
  (∃ x, [1; 2; 3]%Z !! 1 = Some x ∧ vec_at 0 1 st_123 = Some (x, st_123))
  ∧ (vec_at 0 3 st_123 = None ∧ set_at 0 3 (by_value 9%Z) st_123 = None).
Proof.
  split.
  - refine (proj1 (accessor_bounds st_123 0 [1; 2; 3]%Z 1 (by_value 9%Z) eq_refl) _).
    simpl. lia.
  - refine (proj2 (accessor_bounds st_123 0 [1; 2; 3]%Z 3 (by_value 9%Z) eq_refl) _).
    simpl. lia.
Defined.

Lemma element_write_read_witness :
  set_at 0 1 (by_value 9%Z) st_123
  = Some (tt, <[0 := <[1 := 9%Z]> [1; 2; 3]%Z]> st_123).
Proof.
  refine (proj1 (element_write_read st_123 0 [1; 2; 3]%Z 1 (by_value 9%Z) 9%Z
                   eq_refl _ eq_refl)).
  simpl. lia.
Defined.

(** [fast_vector<int,3> c(a[1])] with [a] = (1,2,3). *)
Lemma construct_fill_law_witness :
  construct_fill junk 5 3 (element 0 1) st_123
  = Some (tt, <[5 := replicate 3 2%Z]> st_123).
Proof.
  exact (construct_fill_law junk st_123 5 3 (element 0 1) 2%Z eq_refl eq_refl).
Defined.

(** A vector of five elements and a right-hand side of three. *)
Lemma add_assign_bounds_witness :
  is_Some (add_assign 1 (vec 0) st_mismatch) ↔
  ∀ b, b ∈ vec_refs (vec (T:=Z) 0) →
       ∃ v, st_mismatch !! b = Some v ∧ 5 ≤ length v.
Proof.
  refine (proj2 (add_assign_bounds st_mismatch 1 [0; 0; 0; 0; 0]%Z (vec 0)
                   eq_refl _) _).
  - simpl. lia.
  - exact I.
Defined.

Lemma node_commutative_witness :
  assign_expr 2 (op_plus (vec 0) (vec 1)) st_123
  = assign_expr 2 (op_plus (vec 1) (vec 0)) st_123.
Proof.
  exact (proj2 (node_commutative st_123 2 plus_binary_op (vec 0) (vec 1)
                  (λ x y, f_equal Some (Z.add_comm x y)))).
Defined.

Lemma node_associative_witness :
  assign_expr 2 (op_plus (op_plus (vec 0) (vec 1)) (vec 0)) st_123
  = assign_expr 2 (op_plus (vec 0) (op_plus (vec 1) (vec 0))) st_123.
Proof.
  exact (proj2 (node_associative st_123 2 plus_binary_op (vec 0) (vec 1) (vec 0)
                  (λ x y z, f_equal Some (eq_sym (Z.add_assoc x y z))))).
Defined.

(** [a * 2] against [a * b] for [b] = (2,2,2). *)
Lemma scalar_is_filled_vector_witness :
  assign_expr 2 (fast_vector_expr mul_binary_op (vec 0) (scalar 2%Z)) st_twos
  = assign_expr 2 (fast_vector_expr mul_binary_op (vec 0) (vec 1)) st_twos.
Proof.
  refine (scalar_is_filled_vector st_twos 2 1 3 [0; 0; 0]%Z 2%Z mul_binary_op
            (vec 0) eq_refl eq_refl _).
  simpl. lia.
Defined.

Lemma assign_expr_twice_witness :
  assign_expr 2 (op_plus (vec 0) (vec 1)) (<[2 := [5; 7; 9]%Z]> st_123)
  = Some (2, <[2 := [5; 7; 9]%Z]> st_123).
Proof.
  refine (assign_expr_twice st_123 (<[2 := [5; 7; 9]%Z]> st_123) 2 2
            (op_plus (vec 0) (vec 1)) _ _).
  - simpl. intros Hin. apply elem_of_cons in Hin as [Hin|Hin]; [lia|].
    apply list_elem_of_singleton in Hin. lia.
  - vm_compute. reflexivity.
Defined.

(** [t = a + b; d = t * 2] against [d = (a + b) * 2]. *)
Lemma temporary_is_transparent_witness :
  ∃ vals v1,
    assign_expr 3 (fast_vector_expr mul_binary_op (op_plus (vec 0) (vec 1))
                     (scalar 2%Z)) st_tmp
    = Some (3, <[3 := vals]> st_tmp)
    ∧ eval_all st_tmp (op_plus (vec 0) (vec 1)) 3 = Some v1
    ∧ via_temporary 2 3 mul_binary_op (op_plus (vec 0) (vec 1)) (scalar 2%Z) st_tmp
      = Some (3, <[3 := vals]> (<[2 := v1]> st_tmp)).
Proof.
  refine (temporary_is_transparent st_tmp 2 3 [0; 0; 0]%Z [9; 9; 9]%Z
            mul_binary_op (op_plus (vec 0) (vec 1)) (scalar 2%Z)
            eq_refl eq_refl eq_refl _ _ _).
  - lia.
  - simpl. apply not_elem_of_nil.
  - intros i Hi. destruct i as [|[|[|i]]]; [by eexists..|simpl in Hi; lia].
Defined.

Lemma modifiers_write_target_only_witness :
  ∃ st', add_assign 0 (vec 1) st_123 = Some (0, st') ∧
         st' !! 1 = st_123 !! 1 ∧ st' !! 2 = st_123 !! 2.
Proof.
  assert (add_assign 0 (vec 1) st_123 = Some (0, <[0 := [5; 7; 9]%Z]> st_123))
    as Hrun by (vm_compute; reflexivity).
  pose proof (proj1 (modifiers_write_target_only 0 0 (vec 1) (by_value 0%Z))
                _ _ _ Hrun) as Hframe.
  eexists. split; [exact Hrun|]. split; apply Hframe; lia.
Defined.

Lemma move_transfer_law_witness :
  assign_move 2 1 st_123
  = Some (2, <[2 := [4; 5; 6]%Z]> (<[1 := moved_from <$> [4; 5; 6]%Z]> st_123)).
Proof.
  refine (proj1 (move_transfer_law junk st_123 2 1 9 0 [0; 0; 0]%Z [4; 5; 6]%Z
                   eq_refl) _ eq_refl eq_refl).
  lia.
Defined.

(** [a = std::move(b)] for two vectors of three elements. *)
Lemma size_checked_runs_witness :
  ∃ st', (assign_move 0 1;; mret tt) st_pair = Some (tt, st') ∧
         shape st' = env_33.
Proof.
  refine (size_checked_runs junk env_33 env_33 (SAssign 0 (moved 1))
            (assign_move 0 1;; mret tt) st_pair _ eq_refl _).
  - vm_compute. reflexivity.
  - vm_compute. reflexivity.
Defined.

Lemma layer_sizes_witness :
  Layer.parameters Layer.small = (3 * 3 + 3 * 7)%Z
  ∧ Layer.input_size Layer.small = (5 * 7)%Z.
Proof.
  assert (Layer.desc_ok Layer.small) as Hok.
  { unfold Layer.desc_ok, Layer.is_size_t, Layer.size_t_modulus. simpl. lia. }
  destruct (LayerFacts.layer_sizes Layer.small Hok) as (_ & Hp & Hi & _).
  split; [apply Hp | apply Hi]; unfold Layer.size_t_modulus; simpl; lia.
Defined.

(** ** Programs over vectors of one length *)

Section uniform_laws.
Context {T : Type} `{!Elem T}.
Context (indeterminate : nat → nat → T).
Local Abbreviation store := (gmap nat (list T)).

Lemma uniform_declared (N : nat) (Γ : gmap nat nat) a :
  uniform N Γ → declared Γ a = true → Γ !! a = Some N.
Proof.
  intros Hu Ha. apply bool_decide_eq_true in Ha as [n Hn].
  by rewrite Hn, (Hu a n Hn).
Qed.

Lemma uniform_insert (N : nat) (Γ : gmap nat nat) a :
  uniform N Γ → uniform N (<[a := N]> Γ).
Proof. intros Hu. by apply map_Forall_insert_2. Qed.

Lemma declared_insert (Γ : gmap nat nat) a n b :
  Γ !! a = None → declared Γ b = true → declared (<[a := n]> Γ) b = true.
Proof.
  intros Hfresh Hb. apply bool_decide_eq_true in Hb as [m Hm].
  apply bool_decide_eq_true. exists m.
  rewrite lookup_insert_ne; [done|]. intros ->. congruence.
Qed.

Lemma cref_in_scope_insert (Γ : gmap nat nat) a n (r : cref (T:=T)) :
  Γ !! a = None → cref_in_scope Γ r = true →
  cref_in_scope (<[a := n]> Γ) r = true.
Proof. destruct r; simpl; [done|]. apply declared_insert. Qed.

Lemma operand_in_scope_insert (Γ : gmap nat nat) a n (o : operand (T:=T)) :
  Γ !! a = None → operand_in_scope Γ o = true →
  operand_in_scope (<[a := n]> Γ) o = true.
Proof.
  intros Hfresh. unfold operand_in_scope. rewrite !forallb_forall.
  intros Hall b Hb. apply declared_insert; auto.
Qed.

Lemma deref_runs (N : nat) (Γ : gmap nat nat) (r : cref) (st : store) :
  shape st = Γ → uniform N Γ →
  cref_in_scope Γ r = true → cref_below N r = true →
  ∃ x, deref r st = Some (x, st).
Proof.
  intros Hshape Hu Hscope Hbelow. destruct r as [v|b j]; simpl in *.
  - by exists v.
  - apply bool_decide_eq_true in Hbelow.
    apply (data_get_runs Γ b N); [done| |done].
    by apply uniform_declared.
Qed.

Lemma index_runs (N : nat) (Γ : gmap nat nat) (o : operand) i (st : store) :
  shape st = Γ → uniform N Γ →
  operand_in_scope Γ o = true → total_arith o → i < N →
  ∃ x, index o i st = Some (x, st).
Proof.
  intros Hshape Hu Hscope Htotal Hi. rewrite run_index.
  destruct (proj2 (eval_is_Some st o i)) as [x ->]; [|by exists x].
  split; [|by apply total_arith_defined].
  intros a Ha. apply cell_is_Some.
  assert (Γ !! a = Some N) as HΓa.
  { apply uniform_declared; [done|].
    unfold operand_in_scope in Hscope. rewrite forallb_forall in Hscope.
    by apply Hscope, list_elem_of_In. }
  rewrite <-Hshape in HΓa.
  destruct (shape_lookup_Some st a N HΓa) as (v & Hv & Hlen).
  exists v. split; [done|lia].
Qed.

Lemma materialize_runs (N : nat) (Γ : gmap nat nat) d e (st : store) :
  shape st = Γ → uniform N Γ →
  declared Γ d = true → operand_in_scope Γ e = true → total_arith e →
  ∃ st', materialize d e st = Some (tt, st') ∧ shape st' = Γ.
Proof.
  intros Hshape Hu Hd Hscope Htotal. unfold materialize.
  apply (for_rows_runs Γ d N); [done|by apply uniform_declared|].
  intros i st1 Hi Hst1. rewrite run_bind.
  destruct (index_runs N Γ e i st1) as [x ->]; [done..|].
  apply (data_set_runs Γ d N); [done|by apply uniform_declared|done].
Qed.

Lemma add_assign_runs (N : nat) (Γ : gmap nat nat) a e (st : store) :
  shape st = Γ → uniform N Γ →
  declared Γ a = true → operand_in_scope Γ e = true → total_arith e →
  ∃ st', add_assign a e st = Some (a, st') ∧ shape st' = Γ.
Proof.
  intros Hshape Hu Ha Hscope Htotal. unfold add_assign. rewrite run_bind.
  destruct (for_rows_runs Γ a N
              (λ i, r ← index e i; x ← data_get a i; data_set a i (t_add x r))
              st Hshape (uniform_declared N Γ a Hu Ha))
    as (st' & -> & Hst'); [|by exists st'].
  intros i st1 Hi Hst1. rewrite run_bind.
  destruct (index_runs N Γ e i st1) as [r ->]; [done..|].
  rewrite run_bind.
  destruct (data_get_runs Γ a N i st1) as [x ->];
    [done|by apply uniform_declared|done|].
  apply (data_set_runs Γ a N); [done|by apply uniform_declared|done].
Qed.

Lemma div_assign_runs (N : nat) (Γ : gmap nat nat) a s (st : store) :
  shape st = Γ → uniform N Γ → declared Γ a = true → safe_divisor s →
  ∃ st', div_assign a (by_value s) st = Some (a, st') ∧ shape st' = Γ.
Proof.
  intros Hshape Hu Ha Hsafe. unfold div_assign. rewrite run_bind.
  destruct (for_rows_runs Γ a N
              (λ i, s' ← deref (by_value s); x ← data_get a i;
                    q ← compute (t_div x s'); data_set a i q)
              st Hshape (uniform_declared N Γ a Hu Ha))
    as (st' & -> & Hst'); [|by exists st'].
  intros i st1 Hi Hst1. rewrite run_bind, run_deref_by_value, run_bind.
  destruct (data_get_runs Γ a N i st1) as [x ->];
    [done|by apply uniform_declared|done|].
  rewrite run_bind, run_compute. destruct (Hsafe x) as [q ->]. simpl.
  apply (data_set_runs Γ a N); [done|by apply uniform_declared|done].
Qed.

Lemma std_fill_runs_ref (N : nat) (Γ : gmap nat nat) a value (st : store) :
  shape st = Γ → uniform N Γ → declared Γ a = true →
  cref_in_scope Γ value = true → cref_below N value = true →
  ∃ st', std_fill a value st = Some (tt, st') ∧ shape st' = Γ.
Proof.
  intros Hshape Hu Ha Hscope Hbelow. unfold std_fill.
  apply (for_rows_runs Γ a N); [done|by apply uniform_declared|].
  intros i st1 Hi Hst1. rewrite run_bind.
  destruct (deref_runs N Γ value st1) as [x ->]; [done..|].
  apply (data_set_runs Γ a N); [done|by apply uniform_declared|done].
Qed.

Lemma set_at_runs (N : nat) (Γ : gmap nat nat) a i value (st : store) :
  shape st = Γ → uniform N Γ → declared Γ a = true → i < N →
  cref_in_scope Γ value = true → cref_below N value = true →
  ∃ st', set_at a i value st = Some (tt, st') ∧ shape st' = Γ.
Proof.
  intros Hshape Hu Ha Hi Hscope Hbelow. unfold set_at. rewrite run_bind.
  destruct (deref_runs N Γ value st) as [x ->]; [done..|].
  pose proof (uniform_declared N Γ a Hu Ha) as HΓa.
  rewrite <-Hshape in HΓa.
  destruct (shape_lookup_Some st a N HΓa) as (v & Hv & Hlen).
  rewrite run_bind, (run_size_Some _ _ _ Hv), run_bind.
  rewrite bool_decide_eq_true_2 by lia. simpl.
  apply (data_set_runs Γ a N); [done|by apply uniform_declared|done].
Qed.

Lemma declared_new (Γ : gmap nat nat) a n : declared (<[a := n]> Γ) a = true.
Proof. apply bool_decide_eq_true. exists n. apply lookup_insert_eq. Qed.

Lemma compile_fits_runs (N : nat) (Γ Γ' : gmap nat nat) (s : stmt) (m : M unit)
    (st : store) :
  shape st = Γ → uniform N Γ → fits N s →
  compile indeterminate Γ s = Some (Γ', m) →
  ∃ st', m st = Some (tt, st') ∧ shape st' = Γ' ∧ uniform N Γ'.
Proof.
  intros Hshape Hu Hfit Hc.
  destruct s as [a Rows|a Rows [value|[]|b]|a [value|[]|b]
                |a [value|o|b]|a [value|o|b]|a i value];
    simpl in Hc; try discriminate Hc; simpl in Hfit;
    repeat match goal with
    | H : _ ∧ _ |- _ => destruct H as [? ?]
    end; subst.
  - apply new_vector_Some in Hc as (_ & _ & _ & -> & ->).
    eexists. split; [apply run_alloc|]. split; [|by apply uniform_insert].
    by rewrite shape_alloc.
  - apply new_vector_Some in Hc as (Hfresh & _ & Hscope & -> & ->).
    unfold construct_fill. rewrite run_bind, run_alloc.
    destruct (std_fill_runs_ref N (<[a := N]> (shape st)) a value
                (<[a := indeterminate a <$> seq 0 N]> st))
      as (st' & -> & Hst');
      [apply shape_alloc|by apply uniform_insert|apply declared_new
      |by apply cref_in_scope_insert|done|].
    exists st'. split; [done|]. split; [done|by apply uniform_insert].
  - apply new_vector_Some in Hc as (Hfresh & _ & Hscope & -> & ->).
    unfold construct_expr. rewrite run_bind, run_alloc.
    destruct (materialize_runs N (<[a := N]> (shape st)) a
                (fast_vector_expr op lhs rhs)
                (<[a := indeterminate a <$> seq 0 N]> st))
      as (st' & -> & Hst');
      [apply shape_alloc|by apply uniform_insert|apply declared_new
      |by apply operand_in_scope_insert|done|].
    exists st'. split; [done|]. split; [done|by apply uniform_insert].
  - apply new_vector_Some in Hc as (Hfresh & _ & Hb & -> & ->).
    apply bool_decide_eq_true in Hb.
    unfold construct_move. rewrite run_bind, run_alloc.
    destruct (move_elements_runs (<[a := N]> (shape st)) a b N
                (<[a := indeterminate a <$> seq 0 N]> st))
      as (st' & -> & Hst');
      [apply shape_alloc|apply lookup_insert_eq| |].
    { rewrite lookup_insert_ne; [done|]. intros ->. congruence. }
    exists st'. split; [done|]. split; [done|by apply uniform_insert].
  - apply member_call_Some in Hc as (Ha & Hscope & -> & ->).
    unfold assign_scalar.
    destruct (std_fill_runs_ref N (shape st) a value st) as (st' & -> & Hst');
      [done|done|by apply bool_decide_eq_true|done|done|].
    by exists st'.
  - apply member_call_Some in Hc as (Ha & Hscope & -> & ->).
    unfold assign_expr. rewrite !run_bind.
    destruct (materialize_runs N (shape st) a (fast_vector_expr op lhs rhs) st)
      as (st' & -> & Hst'); [done|done|by apply bool_decide_eq_true|done|done|].
    by exists st'.
  - apply member_call_Some in Hc as ([n Ha] & Hb & -> & ->).
    apply bool_decide_eq_true in Hb as [_ Hb]. rewrite Ha in Hb.
    unfold assign_move. rewrite !run_bind.
    destruct (move_elements_runs (shape st) a b n st) as (st' & -> & Hst');
      [done..|].
    by exists st'.
  - destruct Hfit as (s & [= ->] & Hsafe).
    apply member_call_Some in Hc as (Ha & Hscope & -> & ->).
    rewrite run_bind.
    destruct (div_assign_runs N (shape st) a s st) as (st' & -> & Hst');
      [done|done|by apply bool_decide_eq_true|done|].
    by exists st'.
  - apply member_call_Some in Hc as (Ha & Hscope & -> & ->).
    rewrite run_bind.
    destruct (add_assign_runs N (shape st) a o st) as (st' & -> & Hst');
      [done|done|by apply bool_decide_eq_true|done|done|].
    by exists st'.
  - apply member_call_Some in Hc as (Ha & Hscope & -> & ->).
    rewrite run_bind.
    destruct (add_assign_runs N (shape st) a (vec b) st) as (st' & -> & Hst');
      [done|done|by apply bool_decide_eq_true| |done|].
    { unfold operand_in_scope. simpl. by rewrite Hscope. }
    by exists st'.
  - apply member_call_Some in Hc as (Ha & Hscope & -> & ->).
    destruct (set_at_runs N (shape st) a i value st) as (st' & -> & Hst');
      [done|done|by apply bool_decide_eq_true|done..|].
    by exists st'.
Qed.

(** X17.  When every vector of a program has the same length N, no
    written index reaches N and every division is by a plain value that
    is a safe divisor, acceptance is enough: the program runs to its end
    from the empty store, no read or write leaves a vector, and the final
    store holds each declared vector with N elements. *)
Theorem uniform_program_runs (N : nat) (p : list stmt) (Γ : gmap nat nat)
    (m : M unit) :
  Forall (fits N) p →
  compile_prog indeterminate ∅ p = Some (Γ, m) →
  ∃ st : store, m ∅ = Some (tt, st) ∧ shape st = Γ ∧ uniform N Γ.
Proof.
  intros Hfits Hc.
  cut (∀ (Γ0 : gmap nat nat) (st0 : store),
         shape st0 = Γ0 → uniform N Γ0 →
         compile_prog indeterminate Γ0 p = Some (Γ, m) →
         ∃ st, m st0 = Some (tt, st) ∧ shape st = Γ ∧ uniform N Γ).
  { intros Hgen. apply (Hgen ∅ ∅); [apply fmap_empty|apply map_Forall_empty|done]. }
  clear Hc. revert m. induction Hfits as [|s p Hs Hp IH]; intros m Γ0 st0 Hshape Hu Hc.
  - simpl in Hc. injection Hc as <- <-. by exists st0.
  - simpl in Hc.
    destruct (compile indeterminate Γ0 s) as [[Γ1 m1]|] eqn:Hc1; [simpl in Hc|done].
    destruct (compile_prog indeterminate Γ1 p) as [[Γ2 m2]|] eqn:Hc2; [simpl in Hc|done].
    injection Hc as <- <-.
    destruct (compile_fits_runs N Γ0 Γ1 s m1 st0 Hshape Hu Hs Hc1)
      as (st1 & Hst1 & Hshape1 & Hu1).
    rewrite run_bind, Hst1. by apply (IH m2 Γ1 st1).
Qed.

End uniform_laws.

(** Scenario 2 is such a program, with N = 3: it divides by 2. *)
Lemma uniform_program_runs_witness :
  ∃ st : gmap nat (list Z),
    action_scenario2 ∅ = Some (tt, st) ∧ shape st = env_scenario2
    ∧ uniform 3 env_scenario2.
Proof.
  refine (uniform_program_runs junk 3 prog_scenario2 env_scenario2
            action_scenario2 _ eq_refl).
  unfold prog_scenario2. repeat constructor; simpl; try lia.
  exists 2%Z. split; [done|]. intros x. simpl. unfold int_div, int_min.
  rewrite decide_False by lia. by eexists.
Defined.

(** ** The constructor from an expression and its operands *)

Section constructor_bounds.
Context {T : Type} `{!Elem T}.
Context (indeterminate : nat → nat → T).
Local Abbreviation store := (gmap nat (list T)).

(** X18.  Constructing a new vector of [Rows] >= 1 elements from an
    expression that does not mention it has a result exactly when each
    vector of the expression has at least [Rows] elements and every
    operator application in it has a result at each index below [Rows];
    with safe scalar divisors only, the lengths alone decide. *)
Theorem construct_expr_bounds (st : store) (c Rows : nat) (e : operand) :
  st !! c = None →
  0 < Rows →
  c ∉ vec_refs e →
  (is_Some (construct_expr indeterminate c Rows e st) ↔
   (∀ a, a ∈ vec_refs e → ∃ v, st !! a = Some v ∧ Rows ≤ length v)
   ∧ (∀ i, i < Rows → arith_defined st e i))
  ∧ (total_arith e →
     (is_Some (construct_expr indeterminate c Rows e st) ↔
      ∀ a, a ∈ vec_refs e → ∃ v, st !! a = Some v ∧ Rows ≤ length v)).
Proof.
  intros Hc Hpos Hout.
  assert (∀ (st1 st2 : store) i,
            (∀ a, a ≠ c → st1 !! a = st2 !! a) →
            arith_defined st1 e i → arith_defined st2 e i) as Hext.
  { intros st1 st2 i Hsame. apply arith_defined_ext. intros a Ha.
    unfold cell. rewrite Hsame; [done|]. by intros ->. }
  assert (is_Some (construct_expr indeterminate c Rows e st) ↔
          (∀ a, a ∈ vec_refs e → ∃ v, st !! a = Some v ∧ Rows ≤ length v)
          ∧ (∀ i, i < Rows → arith_defined st e i)) as Hiff.
  { unfold construct_expr. rewrite run_bind, run_alloc.
    rewrite (materialize_is_Some _ c (indeterminate c <$> seq 0 Rows))
      by (apply lookup_insert_eq || (rewrite length_fmap, length_seq; lia)).
    rewrite length_fmap, length_seq. split; intros [Hall Harith]; split.
    - intros a Ha. destruct (Hall a Ha) as (v & Hv & Hle). exists v.
      split; [|done]. rewrite lookup_insert_ne in Hv; [done|]. by intros ->.
    - intros i Hi. eapply Hext; [|by apply Harith].
      intros a Ha. by rewrite lookup_insert_ne.
    - intros a Ha. destruct (Hall a Ha) as (v & Hv & Hle). exists v.
      split; [|done]. rewrite lookup_insert_ne; [done|]. by intros ->.
    - intros i Hi. eapply Hext; [|by apply Harith].
      intros a Ha. by rewrite lookup_insert_ne. }
  split; [done|]. intros Htotal. rewrite Hiff.
  assert (∀ i, i < Rows → arith_defined st e i) as Harith
    by (intros; by apply total_arith_defined).
  split; [by intros [? _] | by intros ?; split].
Qed.

End constructor_bounds.

(** A new vector of five elements from an operand of three. *)
Lemma construct_expr_bounds_witness :
  is_Some (construct_expr junk 7 5 (op_plus (vec 0) (vec 0)) st_mismatch) ↔
  ∀ a, a ∈ vec_refs (op_plus (T:=Z) (vec 0) (vec 0)) →
       ∃ v, st_mismatch !! a = Some v ∧ 5 ≤ length v.
Proof.
  refine (proj2 (construct_expr_bounds junk st_mismatch 7 5
                   (op_plus (vec 0) (vec 0)) eq_refl _ _) _).
  - lia.
  - simpl. intros Hin. apply elem_of_cons in Hin as [Hin|Hin]; [lia|].
    apply list_elem_of_singleton in Hin. lia.
  - simpl. repeat split. discriminate.
Defined.
